(** * ManualProjectCreate: the manual project-creation form controller

    A shallow embedding of the form controller found in
    [server/sonar-web/.../ButtonPrimary.tsx] (second document of the file:
    the React class [ManualProjectCreate]), and the properties of its
    validation, key-change, uniqueness-check and submission handlers.

    Layout:
    - [JS]      : the JavaScript values the component computes with
                  (strings as sequences of UTF-16 code units, [||], [trim]);
    - [RegExp]  : the regular-expression fragment used by [validateKey],
                  with a derivative-based [test];
    - the component: state, [setState], the methods of the class as
      computations over the instance, [render], and the event loop;
    - facts about strings and about [test], then the properties of the
      component, then the properties at sample inputs;
    - further properties: frames and invariants of runs, eligibility after
      an edit, submission and its failure, settlements out of order, and
      what reachable instances hold and send. *)

From Stdlib Require Import String Ascii List Bool Arith NArith Lia.
Import ListNotations.

(* ================================================================= *)
(** ** JavaScript strings *)

Module JS.

(** A JavaScript string is a finite sequence of 16-bit code units; [length]
    counts code units and [===] compares the sequences. *)
Definition code_unit := N.
Definition js_string := list code_unit.

(** String literals of the source are ASCII. *)
Definition lit (s : string) : js_string :=
  map N_of_ascii (list_ascii_of_string s).

Fixpoint strict_eq (a b : js_string) : bool :=
  match a, b with
  | [], [] => true
  | x :: a', y :: b' => N.eqb x y && strict_eq a' b'
  | _, _ => false
  end.

(** [a || b] on strings: the empty string is the only falsy string. *)
Definition or_else (a b : js_string) : js_string :=
  match a with
  | [] => b
  | _ :: _ => a
  end.

(** WhiteSpace and LineTerminator code points of ECMAScript, the ones
    [String.prototype.trim] strips: TAB, LF, VT, FF, CR, SP, NBSP, U+1680,
    U+2000..U+200A, U+2028, U+2029, U+202F, U+205F, U+3000, U+FEFF. *)
Definition is_white_space (c : code_unit) : bool :=
  ((9 <=? c) && (c <=? 13)
   || (c =? 32) || (c =? 160) || (c =? 5760)
   || (8192 <=? c) && (c <=? 8202)
   || (c =? 8232) || (c =? 8233) || (c =? 8239) || (c =? 8287)
   || (c =? 12288) || (c =? 65279))%N.

Fixpoint trim_start (s : js_string) : js_string :=
  match s with
  | c :: s' => if is_white_space c then trim_start s' else s
  | [] => []
  end.

Definition trim_end (s : js_string) : js_string :=
  rev (trim_start (rev s)).

Definition trim (s : js_string) : js_string :=
  trim_end (trim_start s).

End JS.

Import JS.

(* ================================================================= *)
(** ** Regular expressions *)

Module RegExp.

(** Members of a character class [[...]]. *)
Inductive ClassAtom : Type :=
| ClassEscape_w                      (* \w *)
| ClassChar (c : code_unit)          (* a single character *)
| ClassRange (lo hi : code_unit).    (* lo-hi *)

(** The pattern language: what the source's pattern uses, closed under
    derivatives. [CharacterClass []] matches nothing, [Empty] matches the
    empty string. *)
Inductive Pattern : Type :=
| Empty
| CharacterClass (items : list ClassAtom)
| Disjunction (p q : Pattern)
| Concat (p q : Pattern)
| Star (p : Pattern)
| Plus (p : Pattern).

Definition in_range (lo hi c : code_unit) : bool :=
  ((lo <=? c) && (c <=? hi))%N.

(** [\w] without the [u] and [i] flags: [A-Za-z0-9_]. *)
Definition word_char (c : code_unit) : bool :=
  (in_range 97 122 c || in_range 65 90 c || in_range 48 57 c || (c =? 95))%N.

Definition atom_mem (a : ClassAtom) (c : code_unit) : bool :=
  match a with
  | ClassEscape_w => word_char c
  | ClassChar d => (c =? d)%N
  | ClassRange lo hi => in_range lo hi c
  end.

Definition class_mem (items : list ClassAtom) (c : code_unit) : bool :=
  existsb (fun a => atom_mem a c) items.

Fixpoint nullable (p : Pattern) : bool :=
  match p with
  | Empty => true
  | CharacterClass _ => false
  | Disjunction p q => nullable p || nullable q
  | Concat p q => nullable p && nullable q
  | Star _ => true
  | Plus p => nullable p
  end.

Fixpoint deriv (c : code_unit) (p : Pattern) : Pattern :=
  match p with
  | Empty => CharacterClass []
  | CharacterClass items =>
      if class_mem items c then Empty else CharacterClass []
  | Disjunction p q => Disjunction (deriv c p) (deriv c q)
  | Concat p q =>
      if nullable p
      then Disjunction (Concat (deriv c p) q) (deriv c q)
      else Concat (deriv c p) q
  | Star p => Concat (deriv c p) (Star p)
  | Plus p => Concat (deriv c p) (Star p)
  end.

(** [/^p$/.test(s)]: with no [m] flag the two assertions anchor the match
    at both ends of the input, so the test is whole-string membership. *)
Fixpoint test (p : Pattern) (s : js_string) : bool :=
  match s with
  | [] => nullable p
  | c :: s' => test (deriv c p) s'
  end.

(** The language of a pattern. *)
Inductive Matches : Pattern -> js_string -> Prop :=
| M_Empty : Matches Empty []
| M_Class items c :
    class_mem items c = true -> Matches (CharacterClass items) [c]
| M_DisjL p q s : Matches p s -> Matches (Disjunction p q) s
| M_DisjR p q s : Matches q s -> Matches (Disjunction p q) s
| M_Concat p q s t :
    Matches p s -> Matches q t -> Matches (Concat p q) (s ++ t)
| M_StarNil p : Matches (Star p) []
| M_StarApp p s t :
    Matches p s -> Matches (Star p) t -> Matches (Star p) (s ++ t)
| M_Plus p s t :
    Matches p s -> Matches (Star p) t -> Matches (Plus p) (s ++ t).

End RegExp.

(* ================================================================= *)
(** ** The component *)

(** Everything the class does with the outside world. *)
Inductive Effect : Type :=
| DoesComponentExists (component : js_string)
    (* doesComponentExists({ component }) *)
| CreateProject (project name : js_string)
    (* createProject({ project, name }) *)
| OnProjectCreate (projectKeys : list js_string).
    (* this.props.onProjectCreate(projectKeys) *)

(** [interface State]. An optional field is [None] when [undefined]. *)
Record State : Type := mkState {
  projectName : js_string;
  projectNameChanged : bool;
  projectNameError : option js_string;
  projectKey : js_string;
  projectKeyError : option js_string;
  submitting : bool;
  touched : bool;
  validating : bool
}.

(** One [field: value] entry of the object literal given to [setState]. *)
Inductive Update : Type :=
| Set_projectName (v : js_string)
| Set_projectNameChanged (v : bool)
| Set_projectNameError (v : option js_string)
| Set_projectKey (v : js_string)
| Set_projectKeyError (v : option js_string)
| Set_submitting (v : bool)
| Set_touched (v : bool)
| Set_validating (v : bool).

Definition assign (s : State) (u : Update) : State :=
  match u with
  | Set_projectName v =>
      mkState v (projectNameChanged s) (projectNameError s) (projectKey s)
              (projectKeyError s) (submitting s) (touched s) (validating s)
  | Set_projectNameChanged v =>
      mkState (projectName s) v (projectNameError s) (projectKey s)
              (projectKeyError s) (submitting s) (touched s) (validating s)
  | Set_projectNameError v =>
      mkState (projectName s) (projectNameChanged s) v (projectKey s)
              (projectKeyError s) (submitting s) (touched s) (validating s)
  | Set_projectKey v =>
      mkState (projectName s) (projectNameChanged s) (projectNameError s) v
              (projectKeyError s) (submitting s) (touched s) (validating s)
  | Set_projectKeyError v =>
      mkState (projectName s) (projectNameChanged s) (projectNameError s)
              (projectKey s) v (submitting s) (touched s) (validating s)
  | Set_submitting v =>
      mkState (projectName s) (projectNameChanged s) (projectNameError s)
              (projectKey s) (projectKeyError s) v (touched s) (validating s)
  | Set_touched v =>
      mkState (projectName s) (projectNameChanged s) (projectNameError s)
              (projectKey s) (projectKeyError s) (submitting s) v (validating s)
  | Set_validating v =>
      mkState (projectName s) (projectNameChanged s) (projectNameError s)
              (projectKey s) (projectKeyError s) (submitting s) (touched s) v
  end.

(** React merges the partial object into the current state. *)
Definition merge (partial : list Update) (s : State) : State :=
  fold_left assign partial s.

(** The instance: [this.mounted], [this.state], and the one piece of state
    the debounced [this.checkFreeKey] keeps between calls: the time and the
    argument of the last call not yet forwarded. *)
Record Component : Type := mkComponent {
  mounted : bool;
  state : State;
  pending : option (N * js_string)
}.

(** Instance methods run against [this] and may touch the outside world. *)
Definition M (A : Type) : Type := Component -> A * Component * list Effect.

Definition ret {A} (a : A) : M A := fun this => (a, this, []).

Definition bind {A B} (m : M A) (f : A -> M B) : M B :=
  fun this =>
    let '(a, this1, fx1) := m this in
    let '(b, this2, fx2) := f a this1 in
    (b, this2, fx1 ++ fx2).

Declare Scope method_scope.
Delimit Scope method_scope with method.
Notation "x <- m ;; k" := (bind m (fun x => k))
  (at level 61, m at next level, right associativity) : method_scope.
Notation "m ;; k" := (bind m (fun _ => k))
  (at level 61, right associativity) : method_scope.
Local Open Scope method_scope.

Definition this_state : M State := fun this => (state this, this, []).
Definition this_mounted : M bool := fun this => (mounted this, this, []).
Definition perform (e : Effect) : M unit := fun this => (tt, this, [e]).

Definition setState (partial : list Update) : M unit :=
  fun this =>
    (tt, mkComponent (mounted this) (merge partial (state this)) (pending this),
     []).

(** [setState(prevState => partial)]. *)
Definition setState_with (updater : State -> list Update) : M unit :=
  fun this =>
    (tt, mkComponent (mounted this) (merge (updater (state this)) (state this))
                     (pending this),
     []).

Definition set_mounted (b : bool) : M unit :=
  fun this => (tt, mkComponent b (state this) (pending this), []).

Definition set_pending (p : option (N * js_string)) : M unit :=
  fun this => (tt, mkComponent (mounted this) (state this) p, []).

Definition this_pending : M (option (N * js_string)) :=
  fun this => (pending this, this, []).

(** What a method leaves behind: the instance and the effects, in order. *)
Definition instance_after {A} (m : M A) (this : Component) : Component :=
  snd (fst (m this)).
Definition effects_of {A} (m : M A) (this : Component) : list Effect :=
  snd (m this).

(** [/^[\w-.:]*[a-zA-Z]+[\w-.:]*$/]. In the class [[\w-.:]] the hyphen
    stands between a class escape and a character, where it is a literal
    hyphen: the class is [\w], [-], [.] and [:]. *)
Definition key_class : list RegExp.ClassAtom :=
  [RegExp.ClassEscape_w; RegExp.ClassChar 45%N; RegExp.ClassChar 46%N;
   RegExp.ClassChar 58%N].

Definition letter_class : list RegExp.ClassAtom :=
  [RegExp.ClassRange 97%N 122%N; RegExp.ClassRange 65%N 90%N].

Definition key_pattern : RegExp.Pattern :=
  RegExp.Concat
    (RegExp.Star (RegExp.CharacterClass key_class))
    (RegExp.Concat
       (RegExp.Plus (RegExp.CharacterClass letter_class))
       (RegExp.Star (RegExp.CharacterClass key_class))).

(** What [createProject] resolves to, [{ project: { key } }]: the handler
    reads the key only. *)
Record CreatedProject : Type := { project_key : js_string }.

(** What can happen to a mounted form: the user's input events, the React
    lifecycle, and the settlement of the promises the handlers started. The
    settlement of a [checkFreeKey] promise carries the [key] its callbacks
    closed over. *)
Inductive Event : Type :=
| DidMount
| WillUnmount
| KeyChange (value : js_string)
| NameChange (value : js_string)
| FormSubmit
| ExistsResolved (key : js_string) (alreadyExist : bool)
| ExistsRejected (key : js_string)
| CreateResolved (response : CreatedProject)
| CreateRejected.

(** [v === undefined]. *)
Definition is_undefined {A} (v : option A) : bool :=
  match v with None => true | Some _ => false end.

Section ManualProjectCreate.

(** [translate] of [sonar-ui-common/helpers/l10n]: the message catalogue. *)
Variable translate : js_string -> js_string.

Definition constructor : Component :=
  {| mounted := false;
     state := {| projectKey := [];
                 projectKeyError := None;
                 projectName := [];
                 projectNameError := None;
                 projectNameChanged := false;
                 submitting := false;
                 touched := false;
                 validating := false |};
     pending := None |}.

Definition componentDidMount : M unit := set_mounted true.

Definition componentWillUnmount : M unit := set_mounted false.

(** The class property [checkFreeKey], before the constructor wraps it:
    the request ... *)
Definition checkFreeKey (key : js_string) : M unit :=
  perform (DoesComponentExists key).

(** ... its [.then] callback ... *)
Definition checkFreeKey_then (key : js_string) (alreadyExist : bool) : M unit :=
  m <- this_mounted ;;
  st <- this_state ;;
  if m && strict_eq key (projectKey st) then
    if negb alreadyExist then
      setState [Set_projectKeyError None; Set_validating false]
    else
      setState
        [Set_projectKeyError
           (Some (translate (lit "onboarding.create_project.project_key.taken")));
         Set_touched true;
         Set_validating false]
  else ret tt.

(** ... and its [.catch] callback. *)
Definition checkFreeKey_catch (key : js_string) : M unit :=
  m <- this_mounted ;;
  st <- this_state ;;
  if m && strict_eq key (projectKey st) then
    setState [Set_projectKeyError None; Set_validating false]
  else ret tt.

(** [debounce(this.checkFreeKey, 250)]: the wait, in milliseconds. *)
Definition wait : N := 250.

(** Modelled from the spec: [debounce] comes from lodash, whose code is not
    part of the sources. A call of the debounced [this.checkFreeKey] at time
    [now] issues nothing: it replaces the pending argument by the new one
    and restarts the wait ("rapid edits within a 250ms window collapse into
    a single remote check using the last-entered value"). *)
Definition debounced_checkFreeKey (now : N) (key : js_string) : M unit :=
  set_pending (Some (now, key)).

(** Modelled from the spec: the trailing edge of the same [debounce]. Once
    the wait has elapsed since the last call, the wrapped [checkFreeKey] is
    invoked, once, with the last argument, and nothing is pending any
    more. *)
Definition timerExpired (now : N) : M unit :=
  p <- this_pending ;;
  match p with
  | Some (lastCallTime, key) =>
      if (lastCallTime + wait <=? now)%N
      then set_pending None ;; checkFreeKey key
      else ret tt
  | None => ret tt
  end.

Definition canSubmit (st : State) : bool :=
  is_undefined (projectKeyError st)
  && is_undefined (projectNameError st)
  && (0 <? length (projectKey st))
  && (0 <? length (projectName st)).

(** [event.preventDefault()] concerns the browser's event only and is left
    out. *)
Definition handleFormSubmit : M unit :=
  st <- this_state ;;
  if canSubmit st then
    setState [Set_submitting true] ;;
    perform (CreateProject (projectKey st)
                           (trim (or_else (projectName st) (projectKey st))))
  else ret tt.

Definition createProject_then (response : CreatedProject) : M unit :=
  perform (OnProjectCreate [project_key response]).

Definition createProject_catch : M unit :=
  m <- this_mounted ;;
  if m then setState [Set_submitting false] else ret tt.

Definition validateKey (projectKey : js_string) : option js_string :=
  if (400 <? length projectKey) || negb (RegExp.test key_pattern projectKey)
  then Some (translate (lit "onboarding.create_project.project_key.error"))
  else None.

Definition validateName (projectName : js_string) : option js_string :=
  if (length projectName =? 0) || (255 <? length projectName)
  then Some (translate (lit "onboarding.create_project.display_name.error"))
  else None.

Definition handleProjectKeyChange (now : N) (value : js_string) : M unit :=
  let projectKey := or_else value (lit "") in
  let projectKeyError := validateKey projectKey in
  setState_with (fun prevState =>
    let projectName :=
      if projectNameChanged prevState
      then projectName prevState
      else projectKey in
    [Set_projectKey projectKey;
     Set_projectKeyError projectKeyError;
     Set_projectName projectName;
     Set_projectNameError (validateName projectName);
     Set_touched true;
     Set_validating (is_undefined projectKeyError)]) ;;
  if is_undefined projectKeyError
  then debounced_checkFreeKey now projectKey
  else ret tt.

Definition handleProjectNameChange (value : js_string) : M unit :=
  let projectName := value in
  setState [Set_projectName projectName;
            Set_projectNameChanged true;
            Set_projectNameError (validateName projectName)].

(** The values [render] computes from the state and hands to its children. *)
Record View : Type := mkView {
  projectKeyIsInvalid : bool;
  projectKeyIsValid : bool;
  projectNameIsInvalid : bool;
  projectNameIsValid : bool;
  key_input_value : js_string;
  name_input_value : js_string;
  submit_disabled : bool;      (* <SubmitButton disabled={...}> *)
  spinner_loading : bool       (* <DeferredSpinner loading={...}> *)
}.

Definition render (st : State) : View :=
  {| projectKeyIsInvalid := touched st && negb (is_undefined (projectKeyError st));
     projectKeyIsValid :=
       touched st && negb (validating st) && is_undefined (projectKeyError st);
     projectNameIsInvalid :=
       touched st && negb (is_undefined (projectNameError st));
     projectNameIsValid := touched st && is_undefined (projectNameError st);
     key_input_value := projectKey st;
     name_input_value := projectName st;
     submit_disabled := negb (canSubmit st) || submitting st;
     spinner_loading := submitting st |}.

(** One turn of the event loop at time [now]: a timer that is due runs
    first, then the event's handler. *)
Definition dispatch (now : N) (e : Event) : M unit :=
  match e with
  | DidMount => componentDidMount
  | WillUnmount => componentWillUnmount
  | KeyChange value => handleProjectKeyChange now value
  | NameChange value => handleProjectNameChange value
  | FormSubmit => handleFormSubmit
  | ExistsResolved key alreadyExist => checkFreeKey_then key alreadyExist
  | ExistsRejected key => checkFreeKey_catch key
  | CreateResolved response => createProject_then response
  | CreateRejected => createProject_catch
  end.

Definition turn (te : N * Event) : M unit :=
  timerExpired (fst te) ;; dispatch (fst te) (snd te).

Fixpoint run (es : list (N * Event)) : M unit :=
  match es with
  | [] => ret tt
  | te :: es' => turn te ;; run es'
  end.

(** The keys of the uniqueness requests among some effects, in order. *)
Fixpoint uniqueness_requests (fx : list Effect) : list js_string :=
  match fx with
  | [] => []
  | DoesComponentExists k :: fx' => k :: uniqueness_requests fx'
  | _ :: fx' => uniqueness_requests fx'
  end.

End ManualProjectCreate.

(** *** The claims' vocabulary, written from the specification *)

(** An ASCII letter. *)
Definition is_ascii_letter (c : code_unit) : bool :=
  ((65 <=? c) && (c <=? 90) || (97 <=? c) && (c <=? 122))%N.

(** A word character (letter, digit, underscore), a hyphen, a dot or a
    colon. *)
Definition is_key_char (c : code_unit) : bool :=
  (is_ascii_letter c || (48 <=? c) && (c <=? 57) || (c =? 95)
   || (c =? 45) || (c =? 46) || (c =? 58))%N.

(** The name argument as the specification words it: the trimmed name,
    or the trimmed key when the name is empty after trimming. *)
Definition spec_submitted_name (st : State) : js_string :=
  match trim (projectName st) with
  | [] => trim (projectKey st)
  | n => n
  end.

(** The key-change events of a typing burst, each at its time. *)
Definition typing (keys : list (N * js_string)) : list (N * Event) :=
  map (fun tk => (fst tk, KeyChange (snd tk))) keys.

(** The last key entered, if any. *)
Definition last_entered (keys : list (N * js_string)) : option js_string :=
  match rev keys with
  | [] => None
  | tk :: _ => Some (snd tk)
  end.

(** All events fall in the window of length [wait] that starts at [t0]. *)
Definition within_window (t0 : N) (keys : list (N * js_string)) : Prop :=
  Forall (fun tk => (t0 <= fst tk < t0 + wait)%N) keys.

(** The valid entries of a typing burst are those whose key passes
    [validateKey]; the last of them, with its time and alone. *)
Definition valid_entries (translate : js_string -> js_string)
    (keys : list (N * js_string)) : list (N * js_string) :=
  filter (fun tk => is_undefined (validateKey translate (snd tk))) keys.

Definition last_valid_entry (translate : js_string -> js_string)
    (keys : list (N * js_string)) : option (N * js_string) :=
  match rev (valid_entries translate keys) with
  | [] => None
  | tk :: _ => Some tk
  end.

Definition last_valid_key (translate : js_string -> js_string)
    (keys : list (N * js_string)) : option js_string :=
  last_entered (valid_entries translate keys).

(** *** Sample inputs *)

(** A message catalogue that shows every message by its key. *)
Definition message_keys : js_string -> js_string := fun key => key.

(** A form filled in with key [k] and name [n]. *)
Definition filled_in (k n : js_string) (is_submitting : bool) : State :=
  {| projectKey := k;
     projectKeyError := None;
     projectName := n;
     projectNameError := None;
     projectNameChanged := true;
     submitting := is_submitting;
     touched := true;
     validating := false |}.

Definition mounted_with (st : State) : Component :=
  {| mounted := true; state := st; pending := None |}.

(** Typing [a] and, 100ms later, [a!]. *)
Definition a_then_bang : list (N * js_string) :=
  [(0%N, lit "a"); (100%N, lit "a!")].

(** Typing [m], [my], [my-] at 80ms intervals. *)
Definition typing_my : list (N * js_string) :=
  [(0%N, lit "m"); (80%N, lit "my"); (160%N, lit "my-")].

(** Typing [xy] at 360ms. *)
Definition typing_xy : list (N * js_string) :=
  [(360%N, lit "xy")].

(** A mounted form on which [x] was typed at 100ms, its check not yet
    sent. *)
Definition pending_x : Component :=
  {| mounted := true;
     state := {| projectKey := lit "x";
                 projectKeyError := None;
                 projectName := lit "x";
                 projectNameError := None;
                 projectNameChanged := false;
                 submitting := false;
                 touched := true;
                 validating := true |};
     pending := Some (100%N, lit "x") |}.

(** A mounted form whose name was edited by hand. *)
Definition named_by_hand : Component :=
  mounted_with (filled_in (lit "k") (lit "My project") false).

(** A form, mounted or not, showing key [taken-key] while its check runs. *)
Definition checking (is_mounted : bool) : Component :=
  {| mounted := is_mounted;
     state := {| projectKey := lit "taken-key";
                 projectKeyError := None;
                 projectName := lit "taken-key";
                 projectNameError := None;
                 projectNameChanged := false;
                 submitting := false;
                 touched := true;
                 validating := true |};
     pending := None |}.

(** *** Runs of the component *)

Definition is_NameChange (e : Event) : bool :=
  match e with
  | NameChange _ => true
  | _ => false
  end.

(** The events whose handlers write [projectKey] or [projectKeyError]. *)
Definition touches_key (e : Event) : bool :=
  match e with
  | KeyChange _ | ExistsResolved _ _ | ExistsRejected _ => true
  | _ => false
  end.

(** The settlements of the promises the handlers started. *)
Definition is_settlement (e : Event) : bool :=
  match e with
  | ExistsResolved _ _ | ExistsRejected _ | CreateResolved _ | CreateRejected =>
      true
  | _ => false
  end.

(** A promise settles after the call that made it: [e], when a settlement,
    answers one of the calls among the effects [fx] performed so far. *)
Definition answers (fx : list Effect) (e : Event) : Prop :=
  match e with
  | ExistsResolved key _ | ExistsRejected key =>
      In (DoesComponentExists key) fx
  | CreateResolved _ | CreateRejected =>
      exists project name, In (CreateProject project name) fx
  | _ => True
  end.

(** The instances a form can be in, with the effects performed so far: the
    constructed instance, then timers coming due and event-loop turns, in
    any number and at any times, each settlement answering an earlier
    call. *)
Inductive Reachable (translate : js_string -> js_string)
  : Component -> list Effect -> Prop :=
| Reach_constructor : Reachable translate constructor []
| Reach_timer this fx now :
    Reachable translate this fx ->
    Reachable translate
      (instance_after (timerExpired now) this)
      (fx ++ effects_of (timerExpired now) this)
| Reach_turn this fx now e :
    Reachable translate this fx ->
    answers fx e ->
    Reachable translate
      (instance_after (turn translate (now, e)) this)
      (fx ++ effects_of (turn translate (now, e)) this).

(** Local validity of what an instance holds and of what it has sent: the
    keys of the uniqueness requests and the pending one pass [validateKey];
    a key field without error is empty or passes [validateKey], a name field
    without error is empty or passes [validateName]; every creation request
    carries a key that passes [validateKey] and the trimmed form of a name
    that passes [validateName]. *)
Definition locally_valid (translate : js_string -> js_string)
    (this : Component) (fx : list Effect) : Prop :=
  (forall k, In (DoesComponentExists k) fx -> validateKey translate k = None) /\
  (forall t k, pending this = Some (t, k) -> validateKey translate k = None) /\
  (projectKeyError (state this) = None ->
   projectKey (state this) = [] \/
   validateKey translate (projectKey (state this)) = None) /\
  (projectNameError (state this) = None ->
   projectName (state this) = [] \/
   validateName translate (projectName (state this)) = None) /\
  (forall p n, In (CreateProject p n) fx ->
     validateKey translate p = None /\
     exists name, validateName translate name = None /\ n = trim name).

(** *** More sample inputs *)

(** A key change, then a submission. *)
Definition other_key_then_submit : list (N * Event) :=
  [(0%N, KeyChange (lit "other")); (10%N, FormSubmit)].

(** A name change, a submission, and its failure. *)
Definition name_then_failed_submit : list (N * Event) :=
  [(0%N, NameChange (lit "My project")); (10%N, FormSubmit);
   (20%N, CreateRejected)].

(** Settlements arriving late. *)
Definition late_settlements : list (N * Event) :=
  [(0%N, ExistsResolved (lit "taken-key") true);
   (5%N, ExistsRejected (lit "taken-key"));
   (9%N, CreateRejected)].

(** A check answered and a creation that succeeds. *)
Definition late_settlements_ok : list (N * Event) :=
  [(0%N, ExistsResolved (lit "k") false);
   (5%N, CreateResolved {| project_key := lit "k" |});
   (9%N, FormSubmit)].

(** The mounted form after [a] was typed and its check sent. *)
Definition typed_a : Component :=
  {| mounted := true;
     state := {| projectKey := lit "a";
                 projectKeyError := None;
                 projectName := lit "a";
                 projectNameError := None;
                 projectNameChanged := false;
                 submitting := false;
                 touched := true;
                 validating := true |};
     pending := None |}.

(* ================================================================= *)
(** ** Facts about JavaScript strings *)

Lemma strict_eq_iff (a b : js_string) : strict_eq a b = true <-> a = b.
Proof.
  revert b; induction a as [|x a IH]; intros [|y b]; simpl;
    try (split; [discriminate | congruence]); try tauto.
  rewrite andb_true_iff, N.eqb_eq, IH.
  split; [intros [-> ->]; reflexivity | intros [= -> ->]; auto].
Qed.

Lemma strict_eq_refl (a : js_string) : strict_eq a a = true.
Proof. apply strict_eq_iff; reflexivity. Qed.

Lemma strict_eq_neq (a b : js_string) : a <> b -> strict_eq a b = false.
Proof.
  intros Hne; destruct (strict_eq a b) eqn:E; [|reflexivity].
  apply strict_eq_iff in E; contradiction.
Qed.

Lemma or_else_empty (a : js_string) : or_else a [] = a.
Proof. destruct a; reflexivity. Qed.

Lemma or_else_nonempty (a b : js_string) : a <> [] -> or_else a b = a.
Proof. destruct a; [congruence | reflexivity]. Qed.

Lemma length_pos_iff (a : js_string) : (0 <? length a) = true <-> a <> [].
Proof.
  destruct a; simpl; split; try congruence; try discriminate.
  intros _; reflexivity.
Qed.

(* ================================================================= *)
(** ** Correctness of the derivative-based [test] *)

Module RegExpFacts.
Import RegExp.

#[local] Hint Constructors Matches : core.

Lemma Matches_nil_nullable p s : Matches p s -> s = [] -> nullable p = true.
Proof.
  induction 1 as [ | | p q s _ IH | p q s _ IH | p q s t _ IHp _ IHq | |
                   | p s t _ IHp _ _ ]; intros E; simpl; auto.
  - discriminate.
  - rewrite IH by assumption; reflexivity.
  - rewrite IH by assumption; apply orb_true_r.
  - apply app_eq_nil in E as [-> ->]. rewrite IHp, IHq; reflexivity.
  - apply app_eq_nil in E as [-> _]. auto.
Qed.

Lemma nullable_Matches p : nullable p = true -> Matches p [].
Proof.
  induction p as [ | items | p IHp q IHq | p IHp q IHq | p _ | p IHp ];
    simpl; intros E; auto.
  - discriminate.
  - apply orb_true_iff in E as [E | E]; auto.
  - apply andb_true_iff in E as [Ep Eq].
    change (@nil code_unit) with (@nil code_unit ++ []); auto.
  - change (@nil code_unit) with (@nil code_unit ++ []); auto.
Qed.

Lemma deriv_sound c p : forall s, Matches (deriv c p) s -> Matches p (c :: s).
Proof.
  induction p as [ | items | p IHp q IHq | p IHp q IHq | p IHp | p IHp ];
    simpl; intros s H.
  - inversion H; subst; discriminate.
  - destruct (class_mem items c) eqn:E; inversion H; subst;
      [auto | discriminate].
  - inversion H; subst; auto.
  - destruct (nullable p) eqn:E.
    + inversion H as [ | | ? ? ? H1 | ? ? ? H1 | | | | ]; subst.
      * inversion H1; subst.
        change (c :: ?a ++ ?b) with ((c :: a) ++ b); auto.
      * change (c :: s) with ([] ++ c :: s).
        constructor; [apply nullable_Matches; assumption | auto].
    + inversion H; subst.
      change (c :: ?a ++ ?b) with ((c :: a) ++ b); auto.
  - inversion H; subst.
    change (c :: ?a ++ ?b) with ((c :: a) ++ b); auto.
  - inversion H; subst.
    change (c :: ?a ++ ?b) with ((c :: a) ++ b); auto.
Qed.

Lemma deriv_complete p w :
  Matches p w -> forall c s, w = c :: s -> Matches (deriv c p) s.
Proof.
  induction 1 as [ | items d Hd | p q s _ IH | p q s _ IH
                   | p q s t Hp IHp Hq IHq | | p s t Hp IHp Hs IHs
                   | p s t Hp IHp Hs IHs ]; intros c u E; simpl.
  - discriminate.
  - injection E as -> <-. rewrite Hd; auto.
  - auto.
  - auto.
  - destruct s as [|x s]; simpl in E.
    + subst t. rewrite (Matches_nil_nullable _ _ Hp eq_refl). auto.
    + injection E as -> <-.
      destruct (nullable p); [apply M_DisjL|]; auto.
  - discriminate.
  - destruct s as [|x s]; simpl in E.
    + apply (IHs c u E).
    + injection E as -> <-. auto.
  - destruct s as [|x s]; simpl in E.
    + subst t. specialize (IHs c u eq_refl). simpl in IHs. exact IHs.
    + injection E as -> <-. auto.
Qed.

Lemma test_Matches s : forall p, test p s = true <-> Matches p s.
Proof.
  induction s as [|c s IH]; intros p; simpl.
  - split; [apply nullable_Matches | intros H; exact (Matches_nil_nullable _ _ H eq_refl)].
  - rewrite IH. split; [apply deriv_sound | intros H; exact (deriv_complete _ _ H _ _ eq_refl)].
Qed.

(** A starred class matches exactly the strings over the class. *)
Lemma Matches_Star_class items s :
  Matches (Star (CharacterClass items)) s <->
  Forall (fun c => class_mem items c = true) s.
Proof.
  split.
  - intros H. remember (Star (CharacterClass items)) as p eqn:Ep.
    induction H as [ | | | | | | p s t Hp _ Hs IHs | ]; try discriminate.
    + constructor.
    + injection Ep as ->. inversion Hp; subst. simpl.
      constructor; [assumption | apply IHs; reflexivity].
  - induction 1 as [|c s Hc _ IH]; [constructor|].
    change (c :: s) with ([c] ++ s). auto.
Qed.

End RegExpFacts.

(* ================================================================= *)
(** ** The key pattern *)

Ltac bool_to_prop :=
  repeat (rewrite ?orb_true_iff, ?andb_true_iff, ?N.leb_le, ?N.eqb_eq in * ).

Lemma letter_class_spec (c : code_unit) :
  RegExp.class_mem letter_class c = true <-> is_ascii_letter c = true.
Proof.
  unfold letter_class, is_ascii_letter, RegExp.class_mem; simpl.
  unfold RegExp.in_range. bool_to_prop. intuition discriminate || auto.
Qed.

Lemma key_class_spec (c : code_unit) :
  RegExp.class_mem key_class c = true <-> is_key_char c = true.
Proof.
  unfold key_class, is_key_char, is_ascii_letter, RegExp.class_mem; simpl.
  unfold RegExp.word_char, RegExp.in_range. bool_to_prop.
  intuition discriminate || auto.
Qed.

Lemma letter_is_key_char (c : code_unit) :
  is_ascii_letter c = true -> is_key_char c = true.
Proof. unfold is_key_char. intros ->. reflexivity. Qed.

Lemma Forall_key_class (s : js_string) :
  Forall (fun c => RegExp.class_mem key_class c = true) s <->
  Forall (fun c => is_key_char c = true) s.
Proof.
  split; intros H; eapply Forall_impl; try exact H;
    intros c; apply key_class_spec.
Qed.

Lemma Forall_letters_key_chars (s : js_string) :
  Forall (fun c => RegExp.class_mem letter_class c = true) s ->
  Forall (fun c => is_key_char c = true) s.
Proof.
  intros H; eapply Forall_impl; try exact H.
  intros c Hc. apply letter_is_key_char, letter_class_spec, Hc.
Qed.

(** The strings of the key pattern: over the key characters, with a letter
    somewhere. *)
Lemma key_pattern_Matches (s : js_string) :
  RegExp.Matches key_pattern s <->
  Forall (fun c => is_key_char c = true) s /\
  Exists (fun c => is_ascii_letter c = true) s.
Proof.
  unfold key_pattern. split.
  - intros H.
    inversion H as [ | | | | ? ? s1 s23 H1 H23 | | | ]; subst; clear H.
    inversion H23 as [ | | | | ? ? s2 s3 H2 H3 | | | ]; subst; clear H23.
    inversion H2 as [ | | | | | | | ? a b Ha Hb ]; subst; clear H2.
    inversion Ha as [ | ? c Hc | | | | | | ]; subst; clear Ha.
    apply RegExpFacts.Matches_Star_class in H1, H3, Hb.
    apply Forall_key_class in H1, H3.
    apply Forall_letters_key_chars in Hb.
    apply letter_class_spec in Hc.
    split.
    + apply Forall_app; split; [assumption|].
      apply Forall_app; split; [|assumption].
      simpl. constructor; [apply letter_is_key_char|]; assumption.
    + apply Exists_app; right. simpl. constructor. assumption.
  - intros [Hall Hex].
    apply Exists_exists in Hex as (c & Hin & Hc).
    apply in_split in Hin as (s1 & s3 & ->).
    apply Forall_app in Hall as [H1 H3].
    apply Forall_cons_iff in H3 as [_ H3].
    constructor.
    + apply RegExpFacts.Matches_Star_class, Forall_key_class, H1.
    + change (c :: s3) with (([c] ++ []) ++ s3).
      constructor.
      * constructor; [|constructor].
        constructor. apply letter_class_spec, Hc.
      * apply RegExpFacts.Matches_Star_class, Forall_key_class, H3.
Qed.

Lemma key_pattern_test (s : js_string) :
  RegExp.test key_pattern s = true <->
  Forall (fun c => is_key_char c = true) s /\
  Exists (fun c => is_ascii_letter c = true) s.
Proof. rewrite RegExpFacts.test_Matches. apply key_pattern_Matches. Qed.

(* ================================================================= *)
(** ** Properties of the component *)

Lemma canSubmit_iff (st : State) :
  canSubmit st = true <->
  projectKeyError st = None /\ projectNameError st = None /\
  projectKey st <> [] /\ projectName st <> [].
Proof.
  unfold canSubmit.
  rewrite !andb_true_iff, !length_pos_iff.
  destruct (projectKeyError st), (projectNameError st); simpl;
    intuition discriminate.
Qed.

(** How [;;] composes instances and effects. *)
Lemma instance_after_bind {A B} (m : M A) (f : A -> M B) (this : Component) :
  instance_after (bind m f) this =
  instance_after (f (fst (fst (m this)))) (instance_after m this).
Proof.
  unfold instance_after, bind.
  destruct (m this) as [[a this1] fx1]; simpl.
  destruct (f a this1) as [[b this2] fx2]; reflexivity.
Qed.

Lemma effects_of_bind {A B} (m : M A) (f : A -> M B) (this : Component) :
  effects_of (bind m f) this =
  effects_of m this ++ effects_of (f (fst (fst (m this)))) (instance_after m this).
Proof.
  unfold effects_of, instance_after, bind.
  destruct (m this) as [[a this1] fx1]; simpl.
  destruct (f a this1) as [[b this2] fx2]; reflexivity.
Qed.

Section Properties.

Variable translate : js_string -> js_string.

(** Claim C2. For every string, [validateKey] returns no error exactly
    when the string has at most 400 code units, contains an ASCII letter
    and consists of word characters, hyphens, dots and colons only; for
    every other string it returns the key error message. *)
Theorem validateKey_accepts_iff (s : js_string) :
  (validateKey translate s = None <->
   length s <= 400 /\
   Exists (fun c => is_ascii_letter c = true) s /\
   Forall (fun c => is_key_char c = true) s) /\
  (validateKey translate s = None \/
   validateKey translate s =
     Some (translate (lit "onboarding.create_project.project_key.error"))).
Proof.
  unfold validateKey.
  destruct (400 <? length s) eqn:Elen; simpl.
  - apply Nat.ltb_lt in Elen. split; [|right; reflexivity].
    split; [discriminate | intros [Hle _]; lia].
  - apply Nat.ltb_ge in Elen.
    destruct (RegExp.test key_pattern s) eqn:Etest; simpl.
    + apply key_pattern_test in Etest as [Hall Hex].
      split; [|left; reflexivity]. split; auto.
    + split; [|right; reflexivity].
      split; [discriminate|]. intros (_ & Hex & Hall).
      assert (RegExp.test key_pattern s = true) as E
          by (apply key_pattern_test; auto).
      congruence.
Qed.

(** Claim C7. For every string, [validateName] returns no error exactly
    when the string has between 1 and 255 code units; an empty string and
    a string longer than 255 get the name error message. *)
Theorem validateName_accepts_iff (s : js_string) :
  (validateName translate s = None <-> 1 <= length s <= 255) /\
  (validateName translate s = None \/
   validateName translate s =
     Some (translate (lit "onboarding.create_project.display_name.error"))).
Proof.
  unfold validateName.
  destruct (length s =? 0) eqn:E0; simpl.
  - apply Nat.eqb_eq in E0. split; [|right; reflexivity].
    split; [discriminate | lia].
  - apply Nat.eqb_neq in E0.
    destruct (255 <? length s) eqn:E255.
    + apply Nat.ltb_lt in E255. split; [|right; reflexivity].
      split; [discriminate | lia].
    + apply Nat.ltb_ge in E255. split; [|left; reflexivity].
      split; [lia | reflexivity].
Qed.

(** Claim C1, as amended. [canSubmit] holds exactly when both error fields
    are undefined and both the key and the name are non-empty; the submit
    control is enabled exactly when [canSubmit] holds and no submission is
    in progress; neither depends on the [validating] flag. *)
Theorem submit_enabled_iff (st : State) :
  (canSubmit st = true <->
   projectKeyError st = None /\ projectNameError st = None /\
   projectKey st <> [] /\ projectName st <> []) /\
  (submit_disabled (render st) = false <->
   canSubmit st = true /\ submitting st = false) /\
  (forall b : bool,
     canSubmit (merge [Set_validating b] st) = canSubmit st /\
     submit_disabled (render (merge [Set_validating b] st)) =
       submit_disabled (render st)).
Proof.
  split; [|split].
  - apply canSubmit_iff.
  - simpl. rewrite orb_false_iff, negb_false_iff. tauto.
  - intros b. split; reflexivity.
Qed.

(** Claim C1 fails as stated: while a submission is in progress the
    predicate holds and the submit control is disabled. *)
Lemma submit_disabled_while_submitting :
  canSubmit (filled_in (lit "k") (lit "n") true) = true /\
  submit_disabled (render (filled_in (lit "k") (lit "n") true)) = true.
Proof. split; reflexivity. Qed.

(** Under [canSubmit] the name is not empty, so the [|| state.projectKey]
    of the handler never takes its right-hand side. *)
Lemma key_fallback_unreachable (st : State) :
  canSubmit st = true ->
  or_else (projectName st) (projectKey st) = projectName st.
Proof.
  intros Hcan. apply or_else_nonempty.
  apply canSubmit_iff in Hcan as (_ & _ & _ & Hname). exact Hname.
Qed.

(** Where the name is not blank the handler does what is asked of it:
    submitting a form whose state satisfies [canSubmit] and whose trimmed
    name is not empty sets [submitting] to true, leaves the rest of the
    instance as it was, and calls the creation API once, with the project
    key and the trimmed name. *)
Lemma handleFormSubmit_named (this : Component) :
  canSubmit (state this) = true ->
  trim (projectName (state this)) <> [] ->
  instance_after handleFormSubmit this =
    mkComponent (mounted this) (merge [Set_submitting true] (state this))
                (pending this) /\
  submitting (state (instance_after handleFormSubmit this)) = true /\
  effects_of handleFormSubmit this =
    [CreateProject (projectKey (state this))
                   (spec_submitted_name (state this))].
Proof.
  intros Hcan Hname.
  unfold instance_after, effects_of, handleFormSubmit, bind, this_state.
  rewrite Hcan. simpl.
  rewrite (key_fallback_unreachable _ Hcan).
  unfold spec_submitted_name.
  destruct (trim (projectName (state this))); [congruence|].
  repeat split.
Qed.

Lemma handleFormSubmit_named_witness :
  canSubmit (filled_in (lit "my-project") (lit " My project ") false) = true /\
  effects_of handleFormSubmit
    (mounted_with (filled_in (lit "my-project") (lit " My project ") false)) =
    [CreateProject (lit "my-project") (lit "My project")].
Proof.
  split; [reflexivity|].
  apply (handleFormSubmit_named
           (mounted_with (filled_in (lit "my-project") (lit " My project ") false))).
  - reflexivity.
  - discriminate.
Defined.

(** Claim C3, at the failing input. A name of one space passes
    [validateName] and [canSubmit]; the handler trims after [||], so the
    key does not stand in for it: the creation API is called with the empty
    string as name, a name [validateName] refuses, where the claim has the
    trimmed key. *)
Lemma blank_name_not_replaced_by_key :
  validateName message_keys (lit " ") = None /\
  canSubmit (filled_in (lit "k") (lit " ") false) = true /\
  effects_of handleFormSubmit (mounted_with (filled_in (lit "k") (lit " ") false)) =
    [CreateProject (lit "k") []] /\
  validateName message_keys [] <> None /\
  spec_submitted_name (filled_in (lit "k") (lit " ") false) = lit "k" /\
  effects_of handleFormSubmit (mounted_with (filled_in (lit "k") (lit " ") false)) <>
    [CreateProject (projectKey (filled_in (lit "k") (lit " ") false))
                   (spec_submitted_name (filled_in (lit "k") (lit " ") false))].
Proof. repeat split; try reflexivity; discriminate. Qed.

(** Claim C4. After a key-change event the key is the new value; if the
    name was never edited by hand it becomes the new key value and its error
    is the validation of that value, otherwise the name is the prior name
    and its error is the validation of the prior name. *)
Theorem handleProjectKeyChange_mirrors_name
    (now : N) (value : js_string) (this : Component) :
  let st' :=
    state (instance_after (handleProjectKeyChange translate now value) this) in
  projectKey st' = value /\
  (projectNameChanged (state this) = false ->
   projectName st' = value /\
   projectNameError st' = validateName translate value) /\
  (projectNameChanged (state this) = true ->
   projectName st' = projectName (state this) /\
   projectNameError st' = validateName translate (projectName (state this))).
Proof.
  unfold handleProjectKeyChange. simpl lit. rewrite or_else_empty.
  rewrite instance_after_bind.
  destruct (is_undefined (validateKey translate value));
    unfold instance_after; simpl;
    (split; [reflexivity | split; intros ->; split; reflexivity]).
Qed.

(** Claim C5. When a uniqueness check completes on a mounted component for
    the key that is still the current one: if the key exists the key error
    becomes the key-taken message, if it does not exist or the check was
    rejected the key error becomes undefined; [validating] becomes false in
    all three cases. *)
Theorem checkFreeKey_completion (key : js_string) (this : Component) :
  mounted this = true ->
  key = projectKey (state this) ->
  let taken := state (instance_after (checkFreeKey_then translate key true) this) in
  let free := state (instance_after (checkFreeKey_then translate key false) this) in
  let failed := state (instance_after (checkFreeKey_catch key) this) in
  (projectKeyError taken =
     Some (translate (lit "onboarding.create_project.project_key.taken")) /\
   validating taken = false) /\
  (projectKeyError free = None /\ validating free = false) /\
  (projectKeyError failed = None /\ validating failed = false).
Proof.
  intros Hm ->.
  unfold checkFreeKey_then, checkFreeKey_catch, instance_after, bind,
    this_mounted, this_state.
  rewrite Hm, strict_eq_refl. simpl. repeat split.
Qed.

(** Claim C6. The completion of a uniqueness check, resolved or rejected,
    that arrives after unmount or for a key that is no longer the current
    one changes nothing: the instance is the same and nothing is done. *)
Theorem stale_completion_ignored
    (key : js_string) (alreadyExist : bool) (this : Component) :
  mounted this = false \/ key <> projectKey (state this) ->
  checkFreeKey_then translate key alreadyExist this = (tt, this, []) /\
  checkFreeKey_catch key this = (tt, this, []).
Proof.
  intros Hstale.
  assert (mounted this && strict_eq key (projectKey (state this)) = false) as E.
  { destruct Hstale as [-> | Hne]; [reflexivity|].
    rewrite (strict_eq_neq _ _ Hne). apply andb_false_r. }
  unfold checkFreeKey_then, checkFreeKey_catch, bind, this_mounted, this_state.
  rewrite E. split; reflexivity.
Qed.

(** Claim C8. When project creation fails on a mounted component,
    [submitting] becomes false and every other state field, the mounted
    flag and the pending check stay as they were; nothing else is done. *)
Theorem createProject_failure_resets_submitting (this : Component) :
  mounted this = true ->
  let this' := instance_after createProject_catch this in
  submitting (state this') = false /\
  projectKey (state this') = projectKey (state this) /\
  projectKeyError (state this') = projectKeyError (state this) /\
  projectName (state this') = projectName (state this) /\
  projectNameError (state this') = projectNameError (state this) /\
  projectNameChanged (state this') = projectNameChanged (state this) /\
  touched (state this') = touched (state this) /\
  validating (state this') = validating (state this) /\
  mounted this' = mounted this /\
  pending this' = pending this /\
  effects_of createProject_catch this = [].
Proof.
  destruct this as [m st p]; simpl. intros ->.
  unfold createProject_catch, instance_after, effects_of, bind, this_mounted.
  simpl. repeat split.
Qed.

(** Claim C10. When project creation succeeds, the parent callback is
    called once with the one-element list of the created project's key
    whatever the mounted flag is, and the instance is left as it was; the
    flag decides only what the failure branch does. *)
Theorem createProject_success_ignores_mounted
    (response : CreatedProject) (b : bool) (st : State)
    (p : option (N * js_string)) :
  createProject_then response (mkComponent b st p) =
    (tt, mkComponent b st p, [OnProjectCreate [project_key response]]) /\
  createProject_catch (mkComponent false st p) =
    (tt, mkComponent false st p, []) /\
  createProject_catch (mkComponent true st p) =
    (tt, mkComponent true (merge [Set_submitting false] st) p, []).
Proof. repeat split. Qed.

(** *** The debounced uniqueness check *)

Lemma timerExpired_effects (now : N) (this : Component) :
  effects_of (timerExpired now) this =
  match pending this with
  | Some (t, k) => if (t + wait <=? now)%N then [DoesComponentExists k] else []
  | None => []
  end.
Proof.
  unfold timerExpired, effects_of, bind, this_pending.
  destruct (pending this) as [[t k]|]; [|reflexivity].
  destruct (t + wait <=? now)%N; reflexivity.
Qed.

Lemma timerExpired_not_due (now : N) (this : Component) :
  (forall t k, pending this = Some (t, k) -> (now < t + wait)%N) ->
  timerExpired now this = (tt, this, []).
Proof.
  intros Hdue. unfold timerExpired, bind, this_pending.
  destruct (pending this) as [[t k]|] eqn:E; [|reflexivity].
  specialize (Hdue t k eq_refl).
  destruct (N.leb_spec (t + wait) now); [lia | reflexivity].
Qed.

Lemma handleProjectKeyChange_pending
    (now : N) (value : js_string) (this : Component) :
  effects_of (handleProjectKeyChange translate now value) this = [] /\
  pending (instance_after (handleProjectKeyChange translate now value) this) =
    if is_undefined (validateKey translate value)
    then Some (now, value)
    else pending this.
Proof.
  unfold handleProjectKeyChange. simpl lit. rewrite or_else_empty.
  rewrite effects_of_bind, instance_after_bind.
  destruct (is_undefined (validateKey translate value)); split; reflexivity.
Qed.

Lemma turn_KeyChange_not_due (t : N) (value : js_string) (this : Component) :
  (forall t' k, pending this = Some (t', k) -> (t < t' + wait)%N) ->
  effects_of (turn translate (t, KeyChange value)) this = [] /\
  pending (instance_after (turn translate (t, KeyChange value)) this) =
    if is_undefined (validateKey translate value)
    then Some (t, value)
    else pending this.
Proof.
  intros Hdue. unfold turn. simpl fst; simpl snd.
  pose proof (timerExpired_not_due _ _ Hdue) as Ht.
  assert (effects_of (timerExpired t) this = []) as Efx
      by (unfold effects_of; rewrite Ht; reflexivity).
  assert (instance_after (timerExpired t) this = this) as Ei
      by (unfold instance_after; rewrite Ht; reflexivity).
  rewrite effects_of_bind, instance_after_bind, Efx, Ei. simpl app.
  apply handleProjectKeyChange_pending.
Qed.

Lemma last_valid_entry_cons (tk : N * js_string) (keys : list (N * js_string)) :
  last_valid_entry translate (tk :: keys) =
  match last_valid_entry translate keys with
  | Some x => Some x
  | None =>
      if is_undefined (validateKey translate (snd tk)) then Some tk else None
  end.
Proof.
  unfold last_valid_entry, valid_entries. simpl.
  destruct (is_undefined (validateKey translate (snd tk))); simpl;
    destruct (rev (filter _ keys)); reflexivity.
Qed.

Lemma last_valid_entry_valid (keys : list (N * js_string)) (t : N) (k : js_string) :
  last_valid_entry translate keys = Some (t, k) ->
  validateKey translate k = None /\ last_valid_key translate keys = Some k.
Proof.
  unfold last_valid_entry, last_valid_key, last_entered.
  destruct (rev (valid_entries translate keys)) as [|tk l] eqn:E; [discriminate|].
  intros [= ->]. split; [|reflexivity].
  assert (In (t, k) (valid_entries translate keys)) as Hin
      by (apply in_rev; rewrite E; left; reflexivity).
  apply filter_In in Hin as [_ Hv]. simpl in Hv.
  destruct (validateKey translate k); [discriminate | reflexivity].
Qed.

(** During a burst no timer comes due: the burst issues nothing and leaves
    the last valid entry pending. *)
Lemma run_typing_in_window (t0 : N) (keys : list (N * js_string)) :
  within_window t0 keys ->
  forall this : Component,
    (forall t k, pending this = Some (t, k) -> (t0 <= t)%N) ->
    effects_of (run translate (typing keys)) this = [] /\
    pending (instance_after (run translate (typing keys)) this) =
      match last_valid_entry translate keys with
      | Some tk => Some tk
      | None => pending this
      end.
Proof.
  induction 1 as [|[t value] keys Ht _ IH]; intros this Hp.
  - split; reflexivity.
  - simpl in Ht. simpl typing. simpl run.
    assert (forall t' k, pending this = Some (t', k) -> (t < t' + wait)%N)
      as Hdue by (intros t' k E; specialize (Hp t' k E); lia).
    destruct (turn_KeyChange_not_due t value this Hdue) as [Hfx Hpend].
    rewrite effects_of_bind, instance_after_bind, Hfx.
    set (this1 := instance_after (turn translate (t, KeyChange value)) this) in *.
    assert (forall t' k, pending this1 = Some (t', k) -> (t0 <= t')%N) as Hp1.
    { intros t' k. rewrite Hpend.
      destruct (is_undefined (validateKey translate value)).
      - intros [= <- _]. lia.
      - apply Hp. }
    destruct (IH this1 Hp1) as [IHfx IHpend].
    rewrite last_valid_entry_cons. simpl snd.
    split.
    + simpl. exact IHfx.
    + rewrite IHpend, Hpend.
      destruct (last_valid_entry translate keys); [reflexivity|].
      destruct (is_undefined (validateKey translate value)); reflexivity.
Qed.

Lemma timerExpired_pending_after (now : N) (this : Component) :
  pending (instance_after (timerExpired now) this) =
  match pending this with
  | Some (t, k) => if (t + wait <=? now)%N then None else Some (t, k)
  | None => None
  end.
Proof.
  unfold timerExpired, instance_after, bind, this_pending.
  destruct (pending this) as [[t k]|] eqn:E; simpl; [|exact E].
  destruct (t + wait <=? now)%N; simpl; [reflexivity | exact E].
Qed.

Lemma turn_KeyChange_effects (t : N) (value : js_string) (this : Component) :
  effects_of (turn translate (t, KeyChange value)) this =
    effects_of (timerExpired t) this /\
  pending (instance_after (turn translate (t, KeyChange value)) this) =
    if is_undefined (validateKey translate value)
    then Some (t, value)
    else pending (instance_after (timerExpired t) this).
Proof.
  unfold turn. simpl fst; simpl snd.
  rewrite effects_of_bind, instance_after_bind. cbv beta. simpl dispatch.
  destruct (handleProjectKeyChange_pending t value
              (instance_after (timerExpired t) this)) as [-> ->].
  rewrite app_nil_r. split; reflexivity.
Qed.

(** A burst on any instance. Either nothing is issued while it lasts, or
    the one check that was pending before comes due and is issued; no key
    of the burst is. The burst leaves its last valid entry pending. *)
Lemma run_typing_general (t0 : N) (keys : list (N * js_string)) :
  within_window t0 keys ->
  forall this : Component,
    (effects_of (run translate (typing keys)) this = [] /\
     pending (instance_after (run translate (typing keys)) this) =
       match last_valid_entry translate keys with
       | Some tk => Some tk
       | None => pending this
       end) \/
    (exists t k,
        pending this = Some (t, k) /\
        effects_of (run translate (typing keys)) this =
          [DoesComponentExists k] /\
        pending (instance_after (run translate (typing keys)) this) =
          last_valid_entry translate keys).
Proof.
  induction 1 as [|[t value] keys Ht Hrest IH]; intros this.
  - left. split; reflexivity.
  - simpl in Ht. simpl typing. simpl run.
    rewrite effects_of_bind, instance_after_bind. cbv beta.
    destruct (turn_KeyChange_effects t value this) as [Hfx Hpend].
    set (this1 := instance_after (turn translate (t, KeyChange value)) this)
      in *.
    rewrite Hfx, timerExpired_effects, last_valid_entry_cons. simpl snd.
    rewrite timerExpired_pending_after in Hpend.
    pose proof (run_typing_in_window _ _ Hrest this1) as Hwindow.
    destruct (pending this) as [[tp kp]|] eqn:Ep.
    + destruct (tp + wait <=? t)%N eqn:Edue.
      * right. exists tp, kp. split; [reflexivity|].
        destruct Hwindow as [Hfx' Hp'].
        { intros t' k'. rewrite Hpend.
          destruct (is_undefined (validateKey translate value));
            [intros [= <- _]; lia | discriminate]. }
        rewrite Hfx', Hp', Hpend. split; [reflexivity|].
        destruct (last_valid_entry translate keys); [reflexivity|].
        destruct (is_undefined (validateKey translate value)); reflexivity.
      * destruct (is_undefined (validateKey translate value)) eqn:Ev.
        -- left. destruct Hwindow as [Hfx' Hp'].
           { intros t' k'. rewrite Hpend. intros [= <- _]. lia. }
           rewrite Hfx', Hp', Hpend. split; [reflexivity|].
           destruct (last_valid_entry translate keys); reflexivity.
        -- destruct (IH this1) as [[Hfx' Hp'] | (t' & k' & Hpe & Hfx' & Hp')].
           ++ left. rewrite Hfx', Hp', Hpend. split; [reflexivity|].
              destruct (last_valid_entry translate keys); reflexivity.
           ++ right. exists tp, kp. rewrite Hpend in Hpe.
              injection Hpe as <- <-. split; [reflexivity|].
              rewrite Hfx', Hp'. split; [reflexivity|].
              destruct (last_valid_entry translate keys); reflexivity.
    + left. destruct Hwindow as [Hfx' Hp'].
      { intros t' k'. rewrite Hpend.
        destruct (is_undefined (validateKey translate value));
          [intros [= <- _]; lia | discriminate]. }
      rewrite Hfx', Hp', Hpend. split; [reflexivity|].
      destruct (last_valid_entry translate keys); [reflexivity|].
      destruct (is_undefined (validateKey translate value)); reflexivity.
Qed.

(** Claim C9, as amended. Take the key-change events of a burst that falls
    within one 250ms window, on any instance. While the burst lasts at most
    one uniqueness request is issued, and it is not for a key of the burst:
    it is the check that was pending before. The burst leaves pending the
    last key entered among those that pass [validateKey], so only a key
    that passes it; afterwards at most one request is issued, it is for
    that key, and it is issued once 250ms have passed since the key was
    entered. A burst without a valid key schedules nothing. *)
Theorem burst_issues_one_check
    (t0 T : N) (keys : list (N * js_string)) (this : Component) :
  within_window t0 keys ->
  let during :=
    uniqueness_requests (effects_of (run translate (typing keys)) this) in
  let this' := instance_after (run translate (typing keys)) this in
  let after := uniqueness_requests (effects_of (timerExpired T) this') in
  length during <= 1 /\
  (forall k, In k during -> exists t, pending this = Some (t, k)) /\
  length after <= 1 /\
  (forall t k, last_valid_entry translate keys = Some (t, k) ->
     pending this' = Some (t, k) /\
     last_valid_key translate keys = Some k /\
     validateKey translate k = None /\
     after = if (t + wait <=? T)%N then [k] else []) /\
  (last_valid_entry translate keys = None ->
   pending this' = pending this \/ pending this' = None).
Proof.
  intros Hwin. simpl.
  assert (length (uniqueness_requests
                    (effects_of (timerExpired T)
                       (instance_after (run translate (typing keys)) this)))
          <= 1) as Hafter.
  { rewrite timerExpired_effects.
    destruct (pending _) as [[t k]|]; [|simpl; lia].
    destruct (t + wait <=? T)%N; simpl; lia. }
  destruct (run_typing_general _ _ Hwin this)
    as [[Hfx Hp] | (tp & kp & Hpe & Hfx & Hp)]; rewrite Hfx; simpl.
  - split; [lia|]. split; [intros k []|]. split; [exact Hafter|]. split.
    + intros t k E. rewrite E in Hp.
      destruct (last_valid_entry_valid _ _ _ E) as [Hvalid Hlast].
      rewrite timerExpired_effects, Hp.
      repeat split; try assumption.
      destruct (t + wait <=? T)%N; reflexivity.
    + intros E. rewrite E in Hp. left; exact Hp.
  - split; [lia|]. split; [intros k [<- | []]; exists tp; exact Hpe|].
    split; [exact Hafter|]. split.
    + intros t k E. rewrite E in Hp.
      destruct (last_valid_entry_valid _ _ _ E) as [Hvalid Hlast].
      rewrite timerExpired_effects, Hp.
      repeat split; try assumption.
      destruct (t + wait <=? T)%N; reflexivity.
    + intros E. rewrite E in Hp. right; exact Hp.
Qed.

End Properties.

(* ================================================================= *)
(** ** The theorems at sample inputs *)

Lemma handleProjectKeyChange_mirrors_name_witness :
  (projectNameChanged (state constructor) = false /\
   projectName
     (state (instance_after
               (handleProjectKeyChange message_keys 0 (lit "my-project"))
               constructor)) = lit "my-project") /\
  (projectNameChanged (state named_by_hand) = true /\
   projectName
     (state (instance_after
               (handleProjectKeyChange message_keys 0 (lit "my-project"))
               named_by_hand)) = lit "My project").
Proof.
  split; (split; [reflexivity|]).
  - apply (proj1 (proj2 (handleProjectKeyChange_mirrors_name
                           message_keys 0 (lit "my-project") constructor))).
    reflexivity.
  - apply (proj2 (proj2 (handleProjectKeyChange_mirrors_name
                           message_keys 0 (lit "my-project") named_by_hand))).
    reflexivity.
Defined.

Lemma checkFreeKey_completion_witness :
  mounted (checking true) = true /\
  projectKeyError
    (state (instance_after
              (checkFreeKey_then message_keys (lit "taken-key") true)
              (checking true))) =
    Some (lit "onboarding.create_project.project_key.taken") /\
  validating
    (state (instance_after (checkFreeKey_catch (lit "taken-key"))
                           (checking true))) = false.
Proof.
  split; [reflexivity|].
  pose proof (checkFreeKey_completion message_keys (lit "taken-key")
                (checking true) eq_refl eq_refl) as H.
  split; [exact (proj1 (proj1 H)) | exact (proj2 (proj2 (proj2 H)))].
Defined.

Lemma stale_completion_ignored_witness :
  (mounted (checking false) = false /\
   checkFreeKey_then message_keys (lit "taken-key") true (checking false) =
     (tt, checking false, [])) /\
  (lit "old-key" <> projectKey (state (checking true)) /\
   checkFreeKey_then message_keys (lit "old-key") true (checking true) =
     (tt, checking true, [])).
Proof.
  split.
  - split; [reflexivity|].
    apply (stale_completion_ignored message_keys (lit "taken-key") true
             (checking false)).
    left; reflexivity.
  - assert (lit "old-key" <> projectKey (state (checking true))) as Hne
        by discriminate.
    split; [exact Hne|].
    apply (stale_completion_ignored message_keys (lit "old-key") true
             (checking true)).
    right; exact Hne.
Defined.

Lemma createProject_failure_resets_submitting_witness :
  mounted (mounted_with (filled_in (lit "k") (lit "n") true)) = true /\
  submitting
    (state (instance_after createProject_catch
              (mounted_with (filled_in (lit "k") (lit "n") true)))) = false.
Proof.
  split; [reflexivity|].
  apply (createProject_failure_resets_submitting
           (mounted_with (filled_in (lit "k") (lit "n") true))).
  reflexivity.
Defined.

Lemma typing_my_within_window : within_window 0 typing_my.
Proof.
  unfold within_window, typing_my, wait.
  repeat (apply Forall_cons; [simpl; lia|]). apply Forall_nil.
Defined.

Lemma typing_xy_within_window : within_window 360 typing_xy.
Proof.
  unfold within_window, typing_xy, wait.
  repeat (apply Forall_cons; [simpl; lia|]). apply Forall_nil.
Defined.

Lemma burst_issues_one_check_witness :
  (within_window 0 typing_my /\
   uniqueness_requests
     (effects_of (timerExpired 500)
        (instance_after (run message_keys (typing typing_my)) constructor)) =
     [lit "my-"]) /\
  (within_window 360 typing_xy /\
   pending (instance_after (run message_keys (typing typing_xy)) pending_x) =
     Some (360%N, lit "xy") /\
   uniqueness_requests
     (effects_of (timerExpired 700)
        (instance_after (run message_keys (typing typing_xy)) pending_x)) =
     [lit "xy"]).
Proof.
  split.
  - split; [exact typing_my_within_window|].
    apply (proj1 (proj2 (proj2 (proj2
             (burst_issues_one_check message_keys 0 500 typing_my constructor
                typing_my_within_window)))) 160%N (lit "my-") eq_refl).
  - split; [exact typing_xy_within_window|].
    pose proof (proj1 (proj2 (proj2 (proj2
             (burst_issues_one_check message_keys 360 700 typing_xy pending_x
                typing_xy_within_window)))) 360%N (lit "xy") eq_refl)
      as (Hp & _ & _ & Hafter).
    split; [exact Hp | exact Hafter].
Defined.

(** Claim C9 fails as stated: after [a] and then [a!] within 100ms, one
    request is issued, for [a], while the last key entered is [a!]. *)
Lemma burst_request_not_for_last_key :
  pending constructor = None /\
  within_window 0 a_then_bang /\
  uniqueness_requests
    (effects_of (run message_keys (typing a_then_bang) ;; timerExpired 250)
                constructor) = [lit "a"] /\
  last_entered a_then_bang = Some (lit "a!") /\
  lit "a" <> lit "a!".
Proof.
  split; [reflexivity|]. split.
  - unfold within_window, a_then_bang, wait.
    repeat (apply Forall_cons; [simpl; lia|]). apply Forall_nil.
  - repeat split; try reflexivity. discriminate.
Qed.

(** A whole session: mount, type a key, submit once the check has been
    sent, creation succeeds. *)
Example scenario_create_my_project :
  effects_of
    (run message_keys
       [(0%N, DidMount);
        (10%N, KeyChange (lit "my-project"));
        (300%N, FormSubmit);
        (400%N, CreateResolved {| project_key := lit "my-project" |})])
    constructor =
  [DoesComponentExists (lit "my-project");
   CreateProject (lit "my-project") (lit "my-project");
   OnProjectCreate [lit "my-project"]].
Proof. reflexivity. Qed.

(* ================================================================= *)
(** ** Further properties: runs, frames and invariants *)

Section Behaviour.

Variable translate : js_string -> js_string.

(** *** How turns and runs decompose *)

Lemma timerExpired_frame (now : N) (this : Component) :
  state (instance_after (timerExpired now) this) = state this /\
  mounted (instance_after (timerExpired now) this) = mounted this.
Proof.
  unfold timerExpired, instance_after, bind, this_pending.
  destruct (pending this) as [[t k]|]; [|split; reflexivity].
  destruct (t + wait <=? now)%N; split; reflexivity.
Qed.

Lemma turn_instance (now : N) (e : Event) (this : Component) :
  instance_after (turn translate (now, e)) this =
  instance_after (dispatch translate now e)
                 (instance_after (timerExpired now) this).
Proof. unfold turn. rewrite instance_after_bind. reflexivity. Qed.

Lemma turn_effects (now : N) (e : Event) (this : Component) :
  effects_of (turn translate (now, e)) this =
  effects_of (timerExpired now) this ++
  effects_of (dispatch translate now e)
             (instance_after (timerExpired now) this).
Proof. unfold turn. rewrite effects_of_bind. reflexivity. Qed.

Lemma run_cons_instance (te : N * Event) (es : list (N * Event))
    (this : Component) :
  instance_after (run translate (te :: es)) this =
  instance_after (run translate es) (instance_after (turn translate te) this).
Proof. simpl run. rewrite instance_after_bind. reflexivity. Qed.

Lemma handleProjectKeyChange_result
    (now : N) (value : js_string) (this : Component) :
  handleProjectKeyChange translate now value this =
  (tt,
   mkComponent
     (mounted this)
     (merge
        [Set_projectKey value;
         Set_projectKeyError (validateKey translate value);
         Set_projectName
           (if projectNameChanged (state this)
            then projectName (state this) else value);
         Set_projectNameError
           (validateName translate
              (if projectNameChanged (state this)
               then projectName (state this) else value));
         Set_touched true;
         Set_validating (is_undefined (validateKey translate value))]
        (state this))
     (if is_undefined (validateKey translate value)
      then Some (now, value) else pending this),
   []).
Proof.
  unfold handleProjectKeyChange. simpl lit. rewrite or_else_empty.
  unfold bind, setState_with, debounced_checkFreeKey, set_pending, ret.
  destruct (is_undefined (validateKey translate value)); reflexivity.
Qed.

(** Unfolds a handler applied to an instance, branch by branch. *)
Ltac run_handler :=
  unfold instance_after, effects_of, dispatch, componentDidMount,
    componentWillUnmount, handleProjectNameChange, handleFormSubmit,
    checkFreeKey_then, checkFreeKey_catch, createProject_then,
    createProject_catch, setState, set_mounted, perform, this_state,
    this_mounted, bind, ret;
  rewrite ?handleProjectKeyChange_result;
  simpl;
  repeat match goal with
         | |- context [if ?c then _ else _] => destruct c eqn:?; simpl
         end.

(** A property of the instance that timers and the handlers of the events
    [Q] accepts keep holds after every run of such events. *)
Lemma run_preserves (P : Component -> Prop) (Q : Event -> bool) :
  (forall now this, P this -> P (instance_after (timerExpired now) this)) ->
  (forall now e this,
      Q e = true -> P this ->
      P (instance_after (dispatch translate now e) this)) ->
  forall (es : list (N * Event)) (this : Component),
    Forall (fun te => Q (snd te) = true) es ->
    P this ->
    P (instance_after (run translate es) this).
Proof.
  intros Htimer Hdispatch es.
  induction es as [|[now e] es IH]; intros this Hall HP.
  - exact HP.
  - apply Forall_cons_iff in Hall as [HQ Hall]. simpl in HQ.
    rewrite run_cons_instance, turn_instance.
    apply IH; [assumption|].
    apply Hdispatch; [assumption|]. apply Htimer; assumption.
Qed.

Lemma Forall_all_events (es : list (N * Event)) :
  Forall (fun te => (fun _ : Event => true) (snd te) = true) es.
Proof. apply Forall_forall. reflexivity. Qed.

(** *** The name and the key *)

(** Property X7. The name mirrors the key until it is edited. After any run from the
    constructed instance, either the name was edited by hand or the name
    is the key. *)
Theorem name_mirrors_key_until_edited (es : list (N * Event)) :
  let st := state (instance_after (run translate es) constructor) in
  projectNameChanged st = true \/ projectName st = projectKey st.
Proof.
  apply (run_preserves
           (fun this => projectNameChanged (state this) = true \/
                        projectName (state this) = projectKey (state this))
           (fun _ => true)).
  - intros now this H. destruct (timerExpired_frame now this) as [-> _].
    exact H.
  - intros now e [m st p] _ H. simpl in H.
    destruct e; run_handler; auto.
  - apply Forall_all_events.
  - right; reflexivity.
Qed.

(** Property X8. A name edited by hand is kept: events other than name changes leave
    the name and the edited flag as they are. *)
Theorem edited_name_kept (es : list (N * Event)) (this : Component) :
  projectNameChanged (state this) = true ->
  Forall (fun te => is_NameChange (snd te) = false) es ->
  projectName (state (instance_after (run translate es) this)) =
    projectName (state this) /\
  projectNameChanged (state (instance_after (run translate es) this)) = true.
Proof.
  intros Hchanged Hes.
  apply (run_preserves
           (fun this' => projectName (state this') = projectName (state this) /\
                         projectNameChanged (state this') = true)
           (fun e => negb (is_NameChange e))).
  - intros now this' H. destruct (timerExpired_frame now this') as [-> _].
    exact H.
  - intros now e [m st p] He [Hn Hc]. simpl in Hn, Hc.
    destruct e; try discriminate He; run_handler; auto; congruence.
  - eapply Forall_impl; [|exact Hes]. intros te ->. reflexivity.
  - auto.
Qed.

(** Property X9. The key and its error are written by key changes and by the
    settlements of uniqueness checks only: every run of other events keeps
    both, so a form with a key error stays ineligible through it. *)
Theorem key_fields_frame (es : list (N * Event)) (this : Component) :
  Forall (fun te => touches_key (snd te) = false) es ->
  let st' := state (instance_after (run translate es) this) in
  projectKey st' = projectKey (state this) /\
  projectKeyError st' = projectKeyError (state this) /\
  (projectKeyError (state this) <> None -> canSubmit st' = false).
Proof.
  intros Hes.
  assert (projectKey (state (instance_after (run translate es) this)) =
            projectKey (state this) /\
          projectKeyError (state (instance_after (run translate es) this)) =
            projectKeyError (state this)) as [Hk He].
  { apply (run_preserves
             (fun this' => projectKey (state this') = projectKey (state this) /\
                           projectKeyError (state this') =
                             projectKeyError (state this))
             (fun e => negb (touches_key e))).
    - intros now this' H. destruct (timerExpired_frame now this') as [-> _].
      exact H.
    - intros now e [m st p] Hq H. simpl in H.
      destruct e; try discriminate Hq; run_handler; auto.
    - eapply Forall_impl; [|exact Hes]. intros te ->. reflexivity.
    - auto. }
  simpl. repeat split; try assumption.
  unfold canSubmit. rewrite He.
  destruct (projectKeyError (state this)); [reflexivity | congruence].
Qed.

(** Property X13. After unmount the settlements of promises leave the state as it is,
    whatever they answer and in whatever order, and the instance stays
    unmounted. *)
Theorem unmounted_state_frozen (es : list (N * Event)) (this : Component) :
  mounted this = false ->
  Forall (fun te => is_settlement (snd te) = true) es ->
  state (instance_after (run translate es) this) = state this /\
  mounted (instance_after (run translate es) this) = false.
Proof.
  intros Hm Hes.
  apply (run_preserves
           (fun this' => state this' = state this /\ mounted this' = false)
           is_settlement).
  - intros now this' H. destruct (timerExpired_frame now this') as [-> ->].
    exact H.
  - intros now e [m st p] He [Hs Hu]. simpl in Hs, Hu. subst m.
    destruct e; try discriminate He; run_handler; auto.
  - exact Hes.
  - auto.
Qed.

(** Property X10. A key error is never hidden and never shown during a check. After any
    run from the constructed instance, the key input is marked invalid
    exactly when there is a key error, and while [validating] is set there
    is no key error. *)
Theorem key_error_always_shown (es : list (N * Event)) :
  let st := state (instance_after (run translate es) constructor) in
  projectKeyIsInvalid (render st) = negb (is_undefined (projectKeyError st)) /\
  (validating st = false \/ projectKeyError st = None).
Proof.
  assert (let st := state (instance_after (run translate es) constructor) in
          (projectKeyError st = None \/ touched st = true) /\
          (validating st = false \/ projectKeyError st = None)) as [Ht Hv].
  { apply (run_preserves
             (fun this =>
                (projectKeyError (state this) = None \/
                 touched (state this) = true) /\
                (validating (state this) = false \/
                 projectKeyError (state this) = None))
             (fun _ => true)).
    - intros now this H. destruct (timerExpired_frame now this) as [-> _].
      exact H.
    - intros now e [m st p] _ H. simpl in H.
      destruct e; run_handler; auto;
        destruct (validateKey translate value); simpl; auto.
    - apply Forall_all_events.
    - simpl. auto. }
  simpl in *. split; [|exact Hv].
  destruct Ht as [-> | ->]; [apply andb_false_r | reflexivity].
Qed.

(** *** What [render] shows *)

(** Property X11. No input is marked both valid and invalid; before the first key
    interaction nothing is marked; the name is then marked one way or the
    other; the key is not marked valid while its check is running. *)
Theorem render_marks_exclusive (st : State) :
  projectKeyIsInvalid (render st) && projectKeyIsValid (render st) = false /\
  projectNameIsInvalid (render st) && projectNameIsValid (render st) = false /\
  xorb (projectNameIsInvalid (render st)) (projectNameIsValid (render st)) =
    touched st /\
  (projectKeyIsInvalid (render st) || projectKeyIsValid (render st))
    && negb (touched st) = false /\
  projectKeyIsValid (render st) && validating st = false.
Proof.
  simpl.
  destruct (touched st), (validating st), (projectKeyError st),
    (projectNameError st); repeat split.
Qed.

(** *** Eligibility after an edit *)

Lemma is_undefined_iff {A} (v : option A) : is_undefined v = true <-> v = None.
Proof. destruct v; simpl; split; congruence. Qed.

Lemma validateKey_nonempty (s : js_string) :
  validateKey translate s = None -> s <> [].
Proof. intros H ->. discriminate H. Qed.

Lemma validateName_None_iff (s : js_string) :
  validateName translate s = None <-> 1 <= length s <= 255.
Proof.
  unfold validateName.
  destruct (Nat.eqb_spec (length s) 0), (Nat.ltb_spec 255 (length s)); simpl;
    split; try discriminate; try reflexivity; lia.
Qed.

(** Property X5. With a name never edited by hand, a key change leaves the form
    eligible for submission exactly when the new key passes [validateKey]
    and has at most 255 code units: a valid key of 256 to 400 code units is
    refused as a name. *)
Theorem key_change_eligibility
    (now : N) (value : js_string) (this : Component) :
  projectNameChanged (state this) = false ->
  canSubmit
    (state (instance_after (handleProjectKeyChange translate now value) this))
    = true <->
  validateKey translate value = None /\ length value <= 255.
Proof.
  intros Hunchanged.
  unfold instance_after. rewrite handleProjectKeyChange_result. simpl.
  rewrite Hunchanged. unfold canSubmit. simpl.
  rewrite !andb_true_iff, !length_pos_iff.
  split.
  - intros [[[Hk Hn] Hne] _].
    destruct (validateKey translate value); [discriminate|].
    destruct (validateName translate value) eqn:En; [discriminate|].
    apply validateName_None_iff in En. split; [reflexivity | lia].
  - intros [Hk Hlen].
    pose proof (validateKey_nonempty _ Hk) as Hne.
    assert (validateName translate value = None) as ->.
    { apply validateName_None_iff. destruct value; [congruence | simpl in *; lia]. }
    rewrite Hk. auto.
Qed.

(** Property X6. A name change writes the name, its error and the edited flag only, and
    does nothing else; afterwards the form is eligible exactly when the
    key is non-empty and free of error and the name has 1 to 255 code
    units. *)
Theorem name_change_eligibility (value : js_string) (this : Component) :
  let this' := instance_after (handleProjectNameChange translate value) this in
  effects_of (handleProjectNameChange translate value) this = [] /\
  (projectName (state this') = value /\
   projectNameChanged (state this') = true /\
   projectNameError (state this') = validateName translate value) /\
  (projectKey (state this') = projectKey (state this) /\
   projectKeyError (state this') = projectKeyError (state this) /\
   submitting (state this') = submitting (state this) /\
   touched (state this') = touched (state this) /\
   validating (state this') = validating (state this) /\
   mounted this' = mounted this /\
   pending this' = pending this) /\
  (canSubmit (state this') = true <->
   projectKeyError (state this) = None /\ projectKey (state this) <> [] /\
   1 <= length value <= 255).
Proof.
  destruct this as [m st p]. simpl.
  split; [reflexivity|]. split; [repeat split|]. split; [repeat split|].
  unfold canSubmit, instance_after. simpl.
  rewrite !andb_true_iff, !length_pos_iff, !is_undefined_iff,
    <- validateName_None_iff.
  split; [tauto|]. intros (Hk & Hne & Hn). repeat split; auto.
  intros ->. apply validateName_None_iff in Hn. simpl in Hn. lia.
Qed.

(** *** Helpers: white space, stale answers *)

Lemma key_char_not_white_space (c : code_unit) :
  is_key_char c = true -> is_white_space c = false.
Proof.
  intros Hk. apply not_true_is_false. intros Hw.
  unfold is_key_char, is_ascii_letter, is_white_space in *.
  bool_to_prop. lia.
Qed.

Lemma trim_start_clean (s : js_string) :
  Forall (fun c => is_white_space c = false) s -> trim_start s = s.
Proof. intros [|c s' Hc _]; simpl; [|rewrite Hc]; reflexivity. Qed.

Lemma trim_clean (s : js_string) :
  Forall (fun c => is_white_space c = false) s -> trim s = s.
Proof.
  intros H. unfold trim, trim_end.
  rewrite (trim_start_clean s H), trim_start_clean, rev_involutive;
    [reflexivity|].
  apply Forall_rev. exact H.
Qed.

Lemma valid_key_trimmed (s : js_string) :
  validateKey translate s = None -> trim s = s.
Proof.
  unfold validateKey. intros H. apply trim_clean.
  destruct (400 <? length s); [discriminate|]. simpl in H.
  destruct (RegExp.test key_pattern s) eqn:E; [|discriminate].
  apply key_pattern_test in E as [Hall _].
  eapply Forall_impl; [|exact Hall]. apply key_char_not_white_space.
Qed.

Lemma stale_settlement_skipped
    (key : js_string) (alreadyExist : bool) (this : Component) :
  key <> projectKey (state this) ->
  checkFreeKey_then translate key alreadyExist this = (tt, this, []) /\
  checkFreeKey_catch key this = (tt, this, []).
Proof.
  intros Hne.
  unfold checkFreeKey_then, checkFreeKey_catch, bind, this_mounted, this_state.
  rewrite (strict_eq_neq _ _ Hne), andb_false_r. split; reflexivity.
Qed.

(** *** Submission *)

(** Property X1. Submitting a form that is not eligible does nothing: with an empty key,
    an empty name, a key error or a name error, the instance stays as it is
    and no request is made. *)
Theorem handleFormSubmit_ineligible (this : Component) :
  projectKey (state this) = [] \/ projectName (state this) = [] \/
  projectKeyError (state this) <> None \/
  projectNameError (state this) <> None ->
  handleFormSubmit this = (tt, this, []).
Proof.
  intros H.
  assert (canSubmit (state this) = false) as E.
  { destruct (canSubmit (state this)) eqn:E; [|reflexivity].
    apply canSubmit_iff in E as (Hk & Hn & Hke & Hne). tauto. }
  unfold handleFormSubmit, bind, this_state. rewrite E. reflexivity.
Qed.

(** Property X2. A failed submission is undone: on a mounted form that is eligible and
    not yet submitting, the submit handler followed by the failure of the
    creation call makes one creation request and leaves the instance
    exactly as it was, so the same submission can be made again. *)
Theorem failed_submission_restores_form (this : Component) :
  canSubmit (state this) = true ->
  mounted this = true ->
  submitting (state this) = false ->
  instance_after (handleFormSubmit ;; createProject_catch) this = this /\
  effects_of (handleFormSubmit ;; createProject_catch) this =
    [CreateProject (projectKey (state this))
                   (trim (projectName (state this)))] /\
  submit_disabled (render (state this)) = false.
Proof.
  destruct this as [m st p]. simpl. intros Hcan -> Hsub.
  assert (projectName st <> []) as Hname by (apply canSubmit_iff; assumption).
  unfold instance_after, effects_of, handleFormSubmit, createProject_catch,
    bind, this_state, this_mounted.
  simpl. rewrite Hcan. simpl.
  rewrite (or_else_nonempty _ _ Hname).
  destruct st; simpl in *. subst. repeat split.
Qed.

(** Property X4. With a name never edited by hand, typing a key that passes
    [validateKey] and has at most 255 code units and submitting at once
    asks for a project whose name is the key itself, untrimmed: a valid
    key has no white space. *)
Theorem mirrored_name_submitted_as_key
    (now : N) (value : js_string) (this : Component) :
  projectNameChanged (state this) = false ->
  validateKey translate value = None ->
  length value <= 255 ->
  effects_of (handleProjectKeyChange translate now value ;; handleFormSubmit)
             this = [CreateProject value value].
Proof.
  intros Hunchanged Hk Hlen.
  pose proof (validateKey_nonempty _ Hk) as Hne.
  assert (validateName translate value = None) as Hn.
  { apply validateName_None_iff. destruct value; [congruence | simpl in *; lia]. }
  rewrite effects_of_bind. unfold effects_of, instance_after.
  rewrite handleProjectKeyChange_result. simpl.
  rewrite Hunchanged, Hk, Hn.
  unfold handleFormSubmit, bind, this_state, canSubmit. simpl.
  destruct value as [|c value]; [congruence|]. simpl.
  f_equal. f_equal. apply valid_key_trimmed. exact Hk.
Qed.

(** *** Settlements out of order *)

(** Property X12. The answer to a check of another key than the current one cannot
    interfere: whether it arrives before or after the answer to the check
    of the current key, and whatever the two say, the instance ends as if
    only the current key's answer had arrived. *)
Theorem stale_answer_cannot_interfere
    (t1 t2 : N) (stale current : Event) (k : js_string) (b1 b2 : bool)
    (this : Component) :
  k <> projectKey (state this) ->
  stale = ExistsResolved k b1 \/ stale = ExistsRejected k ->
  current = ExistsResolved (projectKey (state this)) b2 \/
  current = ExistsRejected (projectKey (state this)) ->
  instance_after (dispatch translate t1 stale ;; dispatch translate t2 current)
                 this =
    instance_after (dispatch translate t2 current) this /\
  instance_after (dispatch translate t2 current ;; dispatch translate t1 stale)
                 this =
    instance_after (dispatch translate t2 current) this.
Proof.
  intros Hk Hstale Hcur.
  assert (forall this', projectKey (state this') = projectKey (state this) ->
            dispatch translate t1 stale this' = (tt, this', [])) as Hskip.
  { intros this' E.
    assert (k <> projectKey (state this')) as Hk' by congruence.
    destruct (stale_settlement_skipped k b1 this' Hk') as [H1 H2].
    destruct Hstale as [-> | ->]; assumption. }
  assert (projectKey (state (instance_after (dispatch translate t2 current) this))
          = projectKey (state this)) as Hsame.
  { destruct this as [m st p].
    destruct Hcur as [-> | ->]; run_handler; reflexivity. }
  rewrite !instance_after_bind. split.
  - unfold instance_after at 2. rewrite (Hskip this eq_refl). reflexivity.
  - unfold instance_after at 1. rewrite (Hskip _ Hsame). reflexivity.
Qed.

(** *** Flags that stay *)

(** Property X3. Once a submission has started, the form stays in submission until the
    creation call fails: every run without such a failure keeps
    [submitting] set, the submit control disabled and the spinner shown,
    also after the creation has succeeded. *)
Theorem submitting_until_failure (es : list (N * Event)) (this : Component) :
  submitting (state this) = true ->
  Forall (fun te => snd te <> CreateRejected) es ->
  let st' := state (instance_after (run translate es) this) in
  submitting st' = true /\
  submit_disabled (render st') = true /\
  spinner_loading (render st') = true.
Proof.
  intros Hsub Hes.
  assert (submitting (state (instance_after (run translate es) this)) = true)
    as H.
  { apply (run_preserves
             (fun this' => submitting (state this') = true)
             (fun e => match e with CreateRejected => false | _ => true end)).
    - intros now this' H. destruct (timerExpired_frame now this') as [-> _].
      exact H.
    - intros now e [m st p] He H. simpl in H.
      destruct e; try discriminate He; run_handler; auto.
    - eapply Forall_impl; [|exact Hes].
      intros [t e] Hne; destruct e; simpl in *; congruence.
    - exact Hsub. }
  simpl. rewrite H. repeat split. apply orb_true_r.
Qed.

(** Property X14. No handler resets [touched] or the edited flag of the name: whatever
    happens afterwards, a form that was touched stays touched and a name
    that was edited stays edited. *)
Theorem flags_never_reset (es : list (N * Event)) (this : Component) :
  let st' := state (instance_after (run translate es) this) in
  (touched (state this) = true -> touched st' = true) /\
  (projectNameChanged (state this) = true -> projectNameChanged st' = true).
Proof.
  simpl. split; intros Hflag.
  - apply (run_preserves (fun this' => touched (state this') = true)
                         (fun _ => true)).
    + intros now this' H. destruct (timerExpired_frame now this') as [-> _].
      exact H.
    + intros now e [m st p] _ H. simpl in H. destruct e; run_handler; auto.
    + apply Forall_all_events.
    + exact Hflag.
  - apply (run_preserves (fun this' => projectNameChanged (state this') = true)
                         (fun _ => true)).
    + intros now this' H. destruct (timerExpired_frame now this') as [-> _].
      exact H.
    + intros now e [m st p] _ H. simpl in H. destruct e; run_handler; auto.
    + apply Forall_all_events.
    + exact Hflag.
Qed.

(** *** Keys under typing *)

Lemma validateKey_None_iff (s : js_string) :
  validateKey translate s = None <->
  length s <= 400 /\
  Forall (fun c => is_key_char c = true) s /\
  Exists (fun c => is_ascii_letter c = true) s.
Proof.
  unfold validateKey. rewrite <- key_pattern_test.
  destruct (Nat.ltb_spec 400 (length s)); simpl.
  - split; [discriminate | intros [H' _]; lia].
  - destruct (RegExp.test key_pattern s); simpl.
    + split; auto.
    + split; [discriminate | intros [_ H']; discriminate H'].
Qed.

(** Property X15. Typing key characters before or after a key that passes [validateKey]
    keeps it passing, up to 400 code units; and no key with a character
    outside the key characters passes, wherever the character stands. *)
Theorem validateKey_extends (s t : js_string) :
  validateKey translate s = None ->
  Forall (fun c => is_key_char c = true) t ->
  (length (s ++ t) <= 400 ->
   validateKey translate (s ++ t) = None /\
   validateKey translate (t ++ s) = None) /\
  (forall c u, is_key_char c = false ->
     validateKey translate (s ++ c :: u) <> None /\
     validateKey translate (u ++ c :: s) <> None).
Proof.
  intros (Hlen & Hall & Hex)%validateKey_None_iff Ht. split.
  - intros Hlen'. split; apply validateKey_None_iff; repeat split.
    + exact Hlen'.
    + apply Forall_app; auto.
    + apply Exists_app; auto.
    + rewrite length_app in *. lia.
    + apply Forall_app; auto.
    + apply Exists_app; auto.
  - intros c u Hc. split; intros (_ & Hall' & _)%validateKey_None_iff;
      apply Forall_app in Hall' as [_ Hall'];
      apply Forall_cons_iff in Hall' as [Hc' _]; congruence.
Qed.

(** *** What reachable instances hold and send *)

Lemma answers_app (fx fx' : list Effect) (e : Event) :
  answers fx e -> answers (fx ++ fx') e.
Proof.
  destruct e; simpl; auto using in_or_app.
  - intros (p & n & H). exists p, n. auto using in_or_app.
  - intros (p & n & H). exists p, n. auto using in_or_app.
Qed.

Lemma locally_valid_step
    (this this' : Component) (fx fx' : list Effect) :
  locally_valid translate this fx ->
  (forall k, In (DoesComponentExists k) fx' -> validateKey translate k = None) ->
  (forall t k, pending this' = Some (t, k) -> validateKey translate k = None) ->
  (projectKeyError (state this') = None ->
   projectKey (state this') = [] \/
   validateKey translate (projectKey (state this')) = None) ->
  (projectNameError (state this') = None ->
   projectName (state this') = [] \/
   validateName translate (projectName (state this')) = None) ->
  (forall p n, In (CreateProject p n) fx' ->
     validateKey translate p = None /\
     exists name, validateName translate name = None /\ n = trim name) ->
  locally_valid translate this' (fx ++ fx').
Proof.
  intros (Hreq & _ & _ & _ & Hcreate) Hreq' Hpend' Hkey' Hname' Hcreate'.
  unfold locally_valid. repeat apply conj; try assumption.
  - intros k [H | H]%in_app_or; auto.
  - intros p n [H | H]%in_app_or; auto.
Qed.

Lemma timerExpired_pending (now : N) (this : Component) :
  pending (instance_after (timerExpired now) this) = None \/
  pending (instance_after (timerExpired now) this) = pending this.
Proof.
  unfold timerExpired, instance_after, bind, this_pending.
  destruct (pending this) as [[t k]|] eqn:E; [|simpl; auto].
  destruct (t + wait <=? now)%N; simpl; auto.
Qed.

Lemma locally_valid_timer (now : N) (this : Component) (fx : list Effect) :
  locally_valid translate this fx ->
  locally_valid translate
    (instance_after (timerExpired now) this)
    (fx ++ effects_of (timerExpired now) this).
Proof.
  intros Hvalid. pose proof Hvalid as (_ & Hpend & Hkey & Hname & _).
  destruct (timerExpired_frame now this) as [Es _].
  apply (locally_valid_step this); rewrite ?Es, ?timerExpired_effects;
    try assumption.
  - intros k' H.
    destruct (pending this) as [[t k]|]; [|contradiction].
    destruct (t + wait <=? now)%N; [|contradiction].
    destruct H as [[= <-] | []]. apply (Hpend t k eq_refl).
  - intros t k Hp.
    destruct (timerExpired_pending now this) as [E | E]; rewrite E in Hp;
      [discriminate | eauto].
  - intros p0 n H. exfalso.
    destruct (pending this) as [[t k]|]; [|contradiction].
    destruct (t + wait <=? now)%N; [|contradiction].
    destruct H as [H | []]. discriminate H.
Qed.

Lemma locally_valid_dispatch
    (now : N) (e : Event) (this : Component) (fx : list Effect) :
  locally_valid translate this fx ->
  answers fx e ->
  locally_valid translate
    (instance_after (dispatch translate now e) this)
    (fx ++ effects_of (dispatch translate now e) this).
Proof.
  intros Hvalid Hans.
  pose proof Hvalid as (Hreq & Hpend & Hkey & Hname & _).
  apply (locally_valid_step this); [exact Hvalid | ..];
    destruct this as [m st p]; simpl in *.
  - (* no handler makes a uniqueness request *)
    intros k H. exfalso. revert H.
    destruct e; run_handler; intuition discriminate.
  - (* the pending key *)
    intros t k. destruct e; run_handler; intros Hp; eauto.
    + injection Hp as _ <-.
      destruct (validateKey translate value); [discriminate | reflexivity].
  - (* the key and its error *)
    destruct e; simpl in Hans; run_handler; auto; try discriminate.
    + intros _. right.
      match goal with H : _ && strict_eq _ _ = true |- _ =>
        apply andb_true_iff in H as [_ H]; apply strict_eq_iff in H; subst
      end. auto.
    + intros _. right.
      match goal with H : _ && strict_eq _ _ = true |- _ =>
        apply andb_true_iff in H as [_ H]; apply strict_eq_iff in H; subst
      end. auto.
  - (* the name and its error *)
    destruct e; run_handler; auto.
  - (* creation requests *)
    intros p0 n. destruct e; run_handler; try contradiction;
      intros [H | []]; try discriminate H.
    injection H as <- <-.
    match goal with H : canSubmit _ = true |- _ =>
      apply canSubmit_iff in H as (Eke & Ene & Ek & En)
    end.
    split.
    + destruct (Hkey Eke); [contradiction | assumption].
    + exists (projectName st). rewrite (or_else_nonempty _ _ En).
      split; [|reflexivity].
      destruct (Hname Ene); [contradiction | assumption].
Qed.

Lemma reachable_locally_valid (this : Component) (fx : list Effect) :
  Reachable translate this fx -> locally_valid translate this fx.
Proof.
  induction 1 as [ | this fx now _ IH | this fx now e _ IH Hans ].
  - repeat split; simpl; try discriminate; try contradiction; auto.
  - apply locally_valid_timer. exact IH.
  - rewrite turn_instance, turn_effects, app_assoc.
    apply locally_valid_dispatch.
    + apply locally_valid_timer. exact IH.
    + apply answers_app. exact Hans.
Qed.

Lemma uniqueness_requests_In (k : js_string) (fx : list Effect) :
  In k (uniqueness_requests fx) <-> In (DoesComponentExists k) fx.
Proof.
  induction fx as [|[k' | p n | ks] fx IH]; simpl; [tauto | | |].
  - rewrite IH. split; intros [H | H]; auto; left; congruence.
  - rewrite IH. split; [auto | intros [H | H]; [discriminate H | exact H]].
  - rewrite IH. split; [auto | intros [H | H]; [discriminate H | exact H]].
Qed.

(** Property X16. Uniqueness is only ever asked about keys that pass [validateKey]: in
    every reachable instance, each uniqueness request sent so far and the
    pending one, if any, are for such a key. *)
Theorem checks_only_for_valid_keys (this : Component) (fx : list Effect) :
  Reachable translate this fx ->
  Forall (fun k => validateKey translate k = None) (uniqueness_requests fx) /\
  (forall t k, pending this = Some (t, k) -> validateKey translate k = None).
Proof.
  intros Hreach.
  destruct (reachable_locally_valid _ _ Hreach) as (Hreq & Hpend & _).
  split; [|exact Hpend].
  apply Forall_forall. intros k Hin.
  apply Hreq, uniqueness_requests_In, Hin.
Qed.

(** Property X17. The form never asks to create what it would itself refuse: in every
    reachable instance, an eligible state has a key that passes
    [validateKey] and a name that passes [validateName], and each creation
    request sent so far carries such a key and the trimmed form of such a
    name. *)
Theorem eligible_means_locally_valid (this : Component) (fx : list Effect) :
  Reachable translate this fx ->
  (canSubmit (state this) = true ->
   validateKey translate (projectKey (state this)) = None /\
   validateName translate (projectName (state this)) = None) /\
  (forall p n, In (CreateProject p n) fx ->
     validateKey translate p = None /\
     exists name, validateName translate name = None /\ n = trim name).
Proof.
  intros Hreach.
  destruct (reachable_locally_valid _ _ Hreach)
    as (_ & _ & Hkey & Hname & Hcreate).
  split; [|exact Hcreate].
  intros (Eke & Ene & Ek & En)%canSubmit_iff. split.
  - destruct (Hkey Eke); [contradiction | assumption].
  - destruct (Hname Ene); [contradiction | assumption].
Qed.

End Behaviour.

(* ================================================================= *)
(** ** The further properties at sample inputs *)

Lemma edited_name_kept_witness :
  projectName
    (state (instance_after (run message_keys other_key_then_submit)
                           named_by_hand)) = lit "My project".
Proof.
  apply (edited_name_kept message_keys other_key_then_submit named_by_hand).
  - reflexivity.
  - repeat constructor.
Defined.

Lemma key_fields_frame_witness :
  projectKey
    (state (instance_after (run message_keys name_then_failed_submit)
                           (checking true))) = lit "taken-key".
Proof.
  apply (key_fields_frame message_keys name_then_failed_submit (checking true)).
  repeat constructor.
Defined.

Lemma unmounted_state_frozen_witness :
  state (instance_after (run message_keys late_settlements) (checking false)) =
  state (checking false).
Proof.
  apply (unmounted_state_frozen message_keys late_settlements (checking false)).
  - reflexivity.
  - repeat constructor.
Defined.

Lemma key_change_eligibility_witness :
  canSubmit
    (state (instance_after
              (handleProjectKeyChange message_keys 0 (lit "my-project"))
              constructor)) = true.
Proof.
  apply (key_change_eligibility message_keys 0 (lit "my-project") constructor).
  - reflexivity.
  - split; [reflexivity | simpl; lia].
Defined.

Lemma handleFormSubmit_ineligible_witness :
  handleFormSubmit constructor = (tt, constructor, []).
Proof.
  apply (handleFormSubmit_ineligible constructor).
  left; reflexivity.
Defined.

Lemma failed_submission_restores_form_witness :
  instance_after (handleFormSubmit ;; createProject_catch) named_by_hand =
  named_by_hand.
Proof.
  apply (failed_submission_restores_form named_by_hand); reflexivity.
Defined.

Lemma mirrored_name_submitted_as_key_witness :
  effects_of
    (handleProjectKeyChange message_keys 0 (lit "my-project") ;;
     handleFormSubmit) constructor =
  [CreateProject (lit "my-project") (lit "my-project")].
Proof.
  apply (mirrored_name_submitted_as_key message_keys 0 (lit "my-project")
           constructor).
  - reflexivity.
  - reflexivity.
  - simpl; lia.
Defined.

Lemma stale_answer_cannot_interfere_witness :
  instance_after
    (dispatch message_keys 0 (ExistsResolved (lit "old-key") true) ;;
     dispatch message_keys 1 (ExistsResolved (lit "taken-key") false))
    (checking true) =
  instance_after
    (dispatch message_keys 1 (ExistsResolved (lit "taken-key") false))
    (checking true).
Proof.
  apply (stale_answer_cannot_interfere message_keys 0 1
           (ExistsResolved (lit "old-key") true)
           (ExistsResolved (lit "taken-key") false)
           (lit "old-key") true false (checking true)).
  - discriminate.
  - left; reflexivity.
  - left; reflexivity.
Defined.

Lemma typed_a_reachable :
  Reachable message_keys typed_a [DoesComponentExists (lit "a")].
Proof.
  exact (Reach_timer message_keys _ _ 300
           (Reach_turn message_keys _ _ 10 (KeyChange (lit "a"))
              (Reach_turn message_keys _ _ 0 DidMount
                 (Reach_constructor message_keys) I) I)).
Defined.

Lemma checks_only_for_valid_keys_witness :
  Forall (fun k => validateKey message_keys k = None)
         (uniqueness_requests [DoesComponentExists (lit "a")]).
Proof.
  apply (checks_only_for_valid_keys message_keys typed_a
           [DoesComponentExists (lit "a")] typed_a_reachable).
Defined.

Lemma eligible_means_locally_valid_witness :
  validateKey message_keys (projectKey (state typed_a)) = None /\
  validateName message_keys (projectName (state typed_a)) = None.
Proof.
  apply (proj1 (eligible_means_locally_valid message_keys typed_a
                  [DoesComponentExists (lit "a")] typed_a_reachable)).
  reflexivity.
Defined.

Lemma submitting_until_failure_witness :
  submit_disabled
    (render (state (instance_after (run message_keys late_settlements_ok)
                      (mounted_with (filled_in (lit "k") (lit "n") true)))))
  = true.
Proof.
  apply (submitting_until_failure message_keys late_settlements_ok
           (mounted_with (filled_in (lit "k") (lit "n") true))).
  - reflexivity.
  - repeat constructor; discriminate.
Defined.

Lemma flags_never_reset_witness :
  touched
    (state (instance_after (run message_keys name_then_failed_submit)
                           (checking true))) = true.
Proof.
  apply (proj1 (flags_never_reset message_keys name_then_failed_submit
                  (checking true))).
  reflexivity.
Defined.

Lemma validateKey_extends_witness :
  validateKey message_keys (lit "my" ++ lit "-project_1") = None.
Proof.
  apply (proj1 (validateKey_extends message_keys (lit "my") (lit "-project_1")
                  eq_refl ltac:(repeat constructor))).
  simpl; lia.
Defined.

(** Sustained typing: [x] typed at 100ms, [xy] at 360ms. The check of [x]
    has come due and is issued when [xy] is typed; the check of [xy] is
    issued once its own wait has elapsed. *)
Example scenario_sustained_typing :
  uniqueness_requests
    (effects_of (run message_keys (typing typing_xy)) pending_x) = [lit "x"] /\
  uniqueness_requests
    (effects_of (timerExpired 700)
       (instance_after (run message_keys (typing typing_xy)) pending_x)) =
    [lit "xy"].
Proof. split; reflexivity. Qed.
